(** * Event broadcaster of qmsk/go-web: the control loop and its registry

    A shallow embedding of the WebSocket publish/subscribe core
    ([clientSet], [Events.run], [Events.listen], [Events.stop],
    [eventsClient.serveWebsocket]) and the properties of its
    drop-the-slow-consumer delivery policy.

    Go channels live in a store indexed by channel identity; the registry
    is the Go map [map[chan Event]bool].  A goroutine that panics stops the
    whole program, a goroutine that cannot proceed is blocked: both are
    results of the operations below.

    The second part embeds the REST dispatch of src/rest.go ([API.lookup],
    [API.apply], [API.handle], [API.ServeHTTP]) over resources given by
    the methods they have. *)

From Stdlib Require Import Strings.Ascii.
From stdpp Require Import gmap list strings pretty.

(** ** Results of Go operations *)

Inductive panic : Type :=
  | send_on_closed_channel
  | close_of_closed_channel
  | close_of_nil_channel.

Inductive result (A : Type) : Type :=
  | Ok (a : A)
  | Panic (p : panic)
  | Blocked.

Arguments Ok {A} a.
Arguments Panic {A} p.
Arguments Blocked {A}.

Definition rbind {A B : Type} (r : result A) (k : A → result B) : result B :=
  match r with
  | Ok a => k a
  | Panic p => Panic p
  | Blocked => Blocked
  end.

Notation "'do' x <- r ; k" := (rbind r (fun x => k))
  (at level 10, x name, r at level 100, k at level 200).

(** [const EVENTS_BUFFER = 100] *)
Definition EVENTS_BUFFER : nat := 100.

(** Identity of a [chan Event] value (its address). *)
Definition chan_id : Type := nat.

Section Broadcaster.

(** [interface{}] values: the core never inspects a payload; the only value
    it builds itself is [struct{}{}]. *)
Context {Payload : Type}.

Inductive iface : Type :=
  | empty_struct
  | dyn (p : Payload).

(** [type State interface{}], [type Event interface{}] *)
Definition State : Type := iface.
Definition Event : Type := iface.

(** A buffered [chan Event]: queued values (oldest first), capacity and the
    closed flag. *)
Record chan : Type := Chan {
  buf : list Event;
  cap : nat;
  closed : bool
}.

(** What [Events.run] and its callers share: the channel store, the
    registry [clients] owned by the loop, and the closed flags of
    [config.EventPush], [events.registerChan] and [events.unregisterChan].
    [next_chan] is the allocator of [make(chan Event, n)]. *)
Record system : Type := System {
  chans : gmap chan_id chan;
  clients : gmap chan_id bool;
  EventPush_closed : bool;
  registerChan_closed : bool;
  unregisterChan_closed : bool;
  next_chan : chan_id
}.

Definition set_chans (h : gmap chan_id chan) (s : system) : system :=
  System h (clients s) (EventPush_closed s) (registerChan_closed s)
         (unregisterChan_closed s) (next_chan s).

Definition set_clients (cs : gmap chan_id bool) (s : system) : system :=
  System (chans s) cs (EventPush_closed s) (registerChan_closed s)
         (unregisterChan_closed s) (next_chan s).

(** ** Channel primitives *)

(** [make(chan Event, n)] *)
Definition make_chan (n : nat) : chan := Chan [] n false.

(** [close(c)]; an identity with no channel behind it acts as the nil
    channel. *)
Definition chan_close (c : chan_id) (s : system) : result system :=
  match chans s !! c with
  | None => Panic close_of_nil_channel
  | Some ch =>
      if closed ch then Panic close_of_closed_channel
      else Ok (set_chans (<[c := Chan (buf ch) (cap ch) true]> (chans s)) s)
  end.

(** [select { case c <- e: ; default: }]: [Some s'] when the send went
    through, [None] when the default branch is taken. *)
Definition chan_try_send (c : chan_id) (e : Event) (s : system)
  : result (option system) :=
  match chans s !! c with
  | None => Ok None
  | Some ch =>
      if closed ch then Panic send_on_closed_channel
      else if length (buf ch) <? cap ch
      then Ok (Some (set_chans (<[c := Chan (buf ch ++ [e]) (cap ch) false]> (chans s)) s))
      else Ok None
  end.

(** [v, ok := <-c]: [Some v] for a value, [None] for [ok = false]. *)
Definition chan_recv (c : chan_id) (s : system) : result (option Event * system) :=
  match chans s !! c with
  | None => Blocked
  | Some ch =>
      match buf ch with
      | v :: rest => Ok (Some v, set_chans (<[c := Chan rest (cap ch) (closed ch)]> (chans s)) s)
      | [] => if closed ch then Ok (None, s) else Blocked
      end
  end.

(** ** clientSet *)

(** [clientSet[clientChan] = true] *)
Definition clientSet_register (c : chan_id) (s : system) : system :=
  set_clients (<[c := true]> (clients s)) s.

(** [delete(clientSet, clientChan)] *)
Definition clientSet_unregister (c : chan_id) (s : system) : system :=
  set_clients (delete c (clients s)) s.

(** [close(clientChan); delete(clientSet, clientChan)] *)
Definition clientSet_drop (c : chan_id) (s : system) : result system :=
  do s1 <- chan_close c s;
  Ok (set_clients (delete c (clients s1)) s1).

(** Non-blocking send, [drop] in the default branch. *)
Definition clientSet_send (c : chan_id) (e : Event) (s : system) : result system :=
  do r <- chan_try_send c e s;
  match r with
  | Some s1 => Ok s1
  | None => clientSet_drop c s
  end.

(** [for clientChan, _ := range clientSet { body }] over the keys in the
    order [keys]: an entry removed before it is reached is not produced. *)
Fixpoint range_clientSet (body : chan_id → system → result system)
    (keys : list chan_id) (s : system) : result system :=
  match keys with
  | [] => Ok s
  | c :: keys' =>
      match clients s !! c with
      | Some _ => do s1 <- body c s; range_clientSet body keys' s1
      | None => range_clientSet body keys' s
      end
  end.

(** The iteration order of a Go map is unspecified; [clientSet_keys] fixes
    one, and the [_in] variants take any. *)
Definition clientSet_keys (s : system) : list chan_id :=
  (map_to_list (clients s)).*1.

Definition clientSet_publish_in (keys : list chan_id) (e : Event) (s : system)
  : result system :=
  range_clientSet (fun c => clientSet_send c e) keys s.

Definition clientSet_publish (e : Event) (s : system) : result system :=
  clientSet_publish_in (clientSet_keys s) e s.

Definition clientSet_close_in (keys : list chan_id) (s : system) : result system :=
  range_clientSet clientSet_drop keys s.

Definition clientSet_close (s : system) : result system :=
  clientSet_close_in (clientSet_keys s) s.

(** ** Events *)

(** [EventConfig.StateFunc func() State]: a closure over the application's
    environment [Env], or nil. *)
Context {Env : Type}.

Record EventConfig : Type := {
  StateFunc : option (Env → State)
}.

(** The messages [Events.run] selects on: a channel from [registerChan], a
    channel from [unregisterChan], a value from [EventPush], or [EventPush]
    closed. *)
Inductive msg : Type :=
  | m_register (c : chan_id)
  | m_unregister (c : chan_id)
  | m_event (e : Event)
  | m_closed.

(** The deferred calls of [run], last deferred first. *)
Definition run_deferred (s : system) : result system :=
  let s1 := System (chans s) (clients s) (EventPush_closed s)
                   (registerChan_closed s) true (next_chan s) in
  let s2 := System (chans s1) (clients s1) (EventPush_closed s1)
                   true (unregisterChan_closed s1) (next_chan s1) in
  clientSet_close s2.

(** One iteration of the [for { select { ... } }] of [run]; the [bool] says
    whether [run] has returned. *)
Definition run_select (m : msg) (s : system) : result (bool * system) :=
  match m with
  | m_register c => Ok (false, clientSet_register c s)
  | m_unregister c => Ok (false, clientSet_unregister c s)
  | m_event e => do s1 <- clientSet_publish e s; Ok (false, s1)
  | m_closed => do s1 <- run_deferred s; Ok (true, s1)
  end.

(** [run] on the messages it receives, in the order it receives them. *)
Fixpoint Events_run (inbox : list msg) (s : system) : result system :=
  match inbox with
  | [] => Ok s
  | m :: inbox' =>
      do r <- run_select m s;
      if r.1 then Ok r.2 else Events_run inbox' r.2
  end.

(** [make(clientSet)] with open [registerChan], [unregisterChan]. *)
Definition MakeEvents : system := System ∅ ∅ false false false 0.

(** [events.state()] *)
Definition Events_state (config : EventConfig) (env : Env) : State :=
  match StateFunc config with
  | Some f => f env
  | None => empty_struct
  end.

(** [eventChan := make(chan Event, n)] *)
Definition new_chan (n : nat) (s : system) : chan_id * system :=
  (next_chan s,
   System (<[next_chan s := make_chan n]> (chans s)) (clients s)
          (EventPush_closed s) (registerChan_closed s)
          (unregisterChan_closed s) (S (next_chan s))).

(** [events.registerChan <- eventChan]: the unbuffered send completes when
    the loop takes the value in its [select], and panics on the closed
    channel. *)
Definition registerChan_send (c : chan_id) (s : system) : result system :=
  if registerChan_closed s then Panic send_on_closed_channel
  else do r <- run_select (m_register c) s; Ok r.2.

(** [events.unregisterChan <- eventsClient] *)
Definition unregisterChan_send (c : chan_id) (s : system) : result system :=
  if unregisterChan_closed s then Panic send_on_closed_channel
  else do r <- run_select (m_unregister c) s; Ok r.2.

(** [events.listen()] with the queue capacity [n] ([EVENTS_BUFFER] in the
    source), called while the application's environment is [env]. *)
Definition Events_listen_cap (n : nat) (config : EventConfig) (env : Env)
    (s : system) : result ((State * chan_id) * system) :=
  let '(eventChan, s1) := new_chan n s in
  do s2 <- registerChan_send eventChan s1;
  Ok ((Events_state config env, eventChan), s2).

Definition Events_listen : EventConfig → Env → system → result ((State * chan_id) * system) :=
  Events_listen_cap EVENTS_BUFFER.

(** [events.stop(eventsClient)] *)
Definition Events_stop (c : chan_id) (s : system) : result system :=
  unregisterChan_send c s.

End Broadcaster.

(** ** Executions

    What the loop and its callers do, as one sequence of atomic actions in
    the order the loop sees them. *)

Section Execution.

Context {Payload Env : Type}.

(** Queue capacity used by [listen] and the configuration of the
    broadcaster. *)
Variable capacity : nat.
Variable config : @EventConfig Payload Env.

Inductive action : Type :=
  | a_listen (env : Env)          (* a caller runs listen() *)
  | a_stop (c : chan_id)          (* a caller runs stop(c) *)
  | a_push (e : @Event Payload)   (* the loop receives e from EventPush *)
  | a_close_source                (* EventPush is closed and the loop sees it *)
  | a_recv (c : chan_id).         (* the consumer of c receives from it *)

(** What a consumer sees on its channel: a value, or [None] for closure. *)
Definition observation : Type := chan_id * option (@Event Payload).

Definition step (a : action) (s : system) : result (list observation * system) :=
  match a with
  | a_listen env =>
      do r <- Events_listen_cap capacity config env s; Ok ([], r.2)
  | a_stop c =>
      do s1 <- Events_stop c s; Ok ([], s1)
  | a_push e =>
      if EventPush_closed s then Panic send_on_closed_channel
      else do r <- run_select (m_event e) s; Ok ([], r.2)
  | a_close_source =>
      if EventPush_closed s then Panic close_of_closed_channel
      else
        do r <- run_select m_closed
                  (System (chans s) (clients s) true (registerChan_closed s)
                          (unregisterChan_closed s) (next_chan s));
        Ok ([], r.2)
  | a_recv c =>
      do r <- chan_recv c s; Ok ([(c, r.1)], r.2)
  end.

Fixpoint exec (t : list action) (s : system) : result (list observation * system) :=
  match t with
  | [] => Ok ([], s)
  | a :: t' =>
      do r1 <- step a s;
      do r2 <- exec t' r1.2;
      Ok (r1.1 ++ r2.1, r2.2)
  end.

(** The values the consumer of [c] received, in order. *)
Fixpoint received (c : chan_id) (obs : list observation) : list (@Event Payload) :=
  match obs with
  | [] => []
  | (c', Some v) :: obs' =>
      if decide (c' = c) then v :: received c obs' else received c obs'
  | (_, None) :: obs' => received c obs'
  end.

End Execution.

(** ** The transport adapter *)

Section Adapter.

Context {Payload : Type}.

(** [websocket.JSON.Send(websocketConn, v)] of golang.org/x/net/websocket:
    [None] is an error, [Some ws] the connection after a successful send. *)
Context {Conn : Type}.
Variable JSON_Send : Conn → @iface Payload → option Conn.

(** [for event := range eventsClient { ... }] on a channel that yields
    [stream] and is then closed ([end_closed]) or still open and empty.
    The first component lists the messages sent on the connection; the
    second is [Ok false] for [return nil], [Ok true] for a returned error
    and [Blocked] while the loop waits for the next value. *)
Fixpoint range_eventsClient (ws : Conn) (stream : list (@Event Payload))
    (end_closed : bool) : list (@iface Payload) * result bool :=
  match stream with
  | [] => ([], if end_closed then Ok false else Blocked)
  | event :: stream' =>
      match JSON_Send ws event with
      | None => ([], Ok true)
      | Some ws' =>
          let r := range_eventsClient ws' stream' end_closed in
          (event :: r.1, r.2)
      end
  end.

Definition eventsClient_serveWebsocket (ws : Conn) (state : @State Payload)
    (stream : list (@Event Payload)) (end_closed : bool)
  : list (@iface Payload) * result bool :=
  match JSON_Send ws state with
  | None => ([], Ok true)
  | Some ws' =>
      let r := range_eventsClient ws' stream end_closed in
      (state :: r.1, r.2)
  end.

End Adapter.

(** ** src/events.go: the loop that keeps the last event

    Same [clientSet]; [run] holds a local [state], sends it to a channel
    when it registers it, and [listen] returns the channel alone. *)

Module events_go.
Section Loop.

Context {Payload : Type}.

(** The loop's view: the shared system and [var state]. *)
Record loop : Type := Loop {
  sys : @system Payload;
  state : @Event Payload
}.

Definition run_select (m : msg) (l : loop) : result (bool * loop) :=
  match m with
  | m_register c =>
      do s1 <- clientSet_send c (state l) (clientSet_register c (sys l));
      Ok (false, Loop s1 (state l))
  | m_unregister c => Ok (false, Loop (clientSet_unregister c (sys l)) (state l))
  | m_event e =>
      do s1 <- clientSet_publish e (sys l);
      Ok (false, Loop s1 e)
  | m_closed =>
      do s1 <- run_deferred (sys l);
      Ok (true, Loop s1 (state l))
  end.

Fixpoint Events_run (inbox : list msg) (l : loop) : result loop :=
  match inbox with
  | [] => Ok l
  | m :: inbox' =>
      do r <- run_select m l;
      if r.1 then Ok r.2 else Events_run inbox' r.2
  end.

(** [var state = Event(struct{}{})], [clients := make(clientSet)] *)
Definition MakeEvents : loop :=
  Loop (System ∅ ∅ false false false 0) empty_struct.

Definition Events_listen_cap (n : nat) (l : loop) : result (chan_id * loop) :=
  let '(eventChan, s1) := new_chan n (sys l) in
  if registerChan_closed s1 then Panic send_on_closed_channel
  else
    do r <- run_select (m_register eventChan) (Loop s1 (state l));
    Ok (eventChan, r.2).

Definition Events_listen : loop → result (chan_id * loop) :=
  Events_listen_cap EVENTS_BUFFER.

End Loop.
End events_go.

(** ** Invariant of the registry and the effect of one visit *)

Section Invariant.

Context {Payload : Type}.
Implicit Types (s : @system Payload) (c : chan_id) (ch : @chan Payload).

(** Every channel in the registry exists and is open. *)
Definition registry_open s : Prop :=
  map_Forall (λ c _, closed <$> chans s !! c = Some false) (clients s).

(** Channel identities are handed out in increasing order. *)
Definition allocated_below s : Prop :=
  map_Forall (λ c _, c < next_chan s) (chans s).

Definition inv s : Prop := registry_open s ∧ allocated_below s.

#[global] Instance registry_open_dec s : Decision (registry_open s).
Proof. unfold registry_open. apply _. Defined.

#[global] Instance allocated_below_dec s : Decision (allocated_below s).
Proof. unfold allocated_below. apply _. Defined.

#[global] Instance inv_dec s : Decision (inv s).
Proof. unfold inv. apply _. Defined.

(** The change one visit of the registry makes to the visited channel:
    its new contents and whether it stays registered. *)
Definition on_chan (f : chan → chan * bool) c s : system :=
  match chans s !! c with
  | Some ch =>
      System (<[c := (f ch).1]> (chans s))
             (if (f ch).2 then clients s else delete c (clients s))
             (EventPush_closed s) (registerChan_closed s)
             (unregisterChan_closed s) (next_chan s)
  | None => s
  end.

(** A non-blocking send of [e]: enqueued when there is room, else closed
    and removed. *)
Definition deliver (e : @Event Payload) ch : chan * bool :=
  if length (buf ch) <? cap ch
  then (Chan (buf ch ++ [e]) (cap ch) false, true)
  else (Chan (buf ch) (cap ch) true, false).

(** A drop: closed and removed. *)
Definition shut ch : chan * bool := (Chan (buf ch) (cap ch) true, false).

(** [c] is produced by a range over [keys] started in [s]. *)
Definition visited (keys : list chan_id) s c : Prop :=
  c ∈ keys ∧ is_Some (clients s !! c).

(** [s'] is [s] after every visited channel went through [f]. *)
Record range_post (f : chan → chan * bool) (keys : list chan_id) s s' : Prop := {
  post_visited : ∀ c ch,
    visited keys s c → chans s !! c = Some ch →
    chans s' !! c = Some (f ch).1 ∧
    clients s' !! c = if (f ch).2 then clients s !! c else None;
  post_other : ∀ c,
    ¬ visited keys s c →
    chans s' !! c = chans s !! c ∧ clients s' !! c = clients s !! c;
  post_EventPush : EventPush_closed s' = EventPush_closed s;
  post_registerChan : registerChan_closed s' = registerChan_closed s;
  post_unregisterChan : unregisterChan_closed s' = unregisterChan_closed s;
  post_next : next_chan s' = next_chan s
}.

End Invariant.

(** ** Per-subscriber view of an execution *)

Section Views.

Context {Payload Env : Type}.
Variable capacity : nat.
Variable config : @EventConfig Payload Env.

(** The events published while [c], registered at the start of [t], stays
    registered: up to its [stop] or the shutdown. *)
Fixpoint published_while_registered (c : chan_id) (t : list (@action Payload Env))
  : list (@Event Payload) :=
  match t with
  | [] => []
  | a_push e :: t' => e :: published_while_registered c t'
  | a_stop c' :: t' =>
      if decide (c' = c) then [] else published_while_registered c t'
  | a_close_source :: _ => []
  | _ :: t' => published_while_registered c t'
  end.

(** The queue of [c] has free capacity. *)
Definition has_room (c : chan_id) (s : @system Payload) : bool :=
  match chans s !! c with
  | Some ch => length (buf ch) <? cap ch
  | None => false
  end.

(** Whenever an event is published in [t] while [c] is registered, the
    queue of [c] has free capacity. *)
Fixpoint room_at_every_push (c : chan_id) (t : list (@action Payload Env))
    (s : @system Payload) : bool :=
  match t with
  | [] => true
  | a :: t' =>
      match a with
      | a_push _ =>
          if decide (is_Some (clients s !! c)) then has_room c s else true
      | _ => true
      end
      && match step capacity config a s with
         | Ok r => room_at_every_push c t' r.2
         | _ => true
         end
  end.

End Views.

(** ** Concrete inputs

    Payloads and environments are numbers; the provider returns the
    environment it is called in. *)

Definition demo_config : @EventConfig nat nat :=
  {| StateFunc := Some (λ n, dyn n) |}.

Definition no_provider : @EventConfig nat nat := {| StateFunc := None |}.

(** Two registered queues of capacity 1: queue 0 is empty, queue 1 is
    full. *)
Definition two_queues : @system nat :=
  System {[0 := Chan [] 1 false; 1 := Chan [dyn 7] 1 false]}
         {[0 := true; 1 := true]} false false false 2.

(** The broadcaster after one [listen] and the close of the event source. *)
Definition after_exit : @system nat :=
  System {[0 := Chan [] EVENTS_BUFFER true]} ∅ true true true 1.

(** A connection that takes [budget] more messages and then fails. *)
Definition budget_send (budget : nat) (v : @iface nat) : option nat :=
  match budget with
  | 0 => None
  | S n => Some n
  end.

(** One queue that the loop dropped with a value still queued. *)
Definition one_dropped : @system nat :=
  System {[0 := Chan [dyn 7] 1 true]} ∅ false false false 1.

(** Two registered empty queues; the same after [stop(0)]; and after the
    close of the event source that followed. *)
Definition two_empty_queues : @system nat :=
  System {[0 := Chan [] 1 false; 1 := Chan [] 1 false]}
         {[0 := true; 1 := true]} false false false 2.

Definition after_stop : @system nat :=
  System {[0 := Chan [] 1 false; 1 := Chan [] 1 false]}
         {[1 := true]} false false false 2.

Definition after_stop_and_close : @system nat :=
  System {[0 := Chan [] 1 false; 1 := Chan [] 1 true]}
         ∅ true true true 2.

(** [two_queues] after one more event. *)
Definition two_queues_after_event : @system nat :=
  System {[0 := Chan [dyn 8] 1 false; 1 := Chan [dyn 7] 1 true]}
         {[0 := true]} false false false 2.

(** ** Measures on executions *)

Section Measures.

Context {Payload Env : Type}.

(** How many events [t] publishes. *)
Fixpoint pushes (t : list (@action Payload Env)) : nat :=
  match t with
  | [] => 0
  | a_push _ :: t' => S (pushes t')
  | _ :: t' => pushes t'
  end.

(** Whether the consumer of [c] receives in [t]. *)
Fixpoint reads_from (c : chan_id) (t : list (@action Payload Env)) : bool :=
  match t with
  | [] => false
  | a_recv c' :: t' => bool_decide (c' = c) || reads_from c t'
  | _ :: t' => reads_from c t'
  end.

(** Whether [stop(c)] is called in [t]. *)
Fixpoint stops (c : chan_id) (t : list (@action Payload Env)) : bool :=
  match t with
  | [] => false
  | a_stop c' :: t' => bool_decide (c' = c) || stops c t'
  | _ :: t' => stops c t'
  end.

(** Every channel has capacity [n] and holds at most [n] values. *)
Definition queues_bounded (n : nat) (s : @system Payload) : Prop :=
  map_Forall (λ _ ch, cap ch = n ∧ length (buf ch) ≤ n) (chans s).

End Measures.

(** ** The goroutine of [Events.ServeWebsocket]

    [listen], then [serveWebsocket], then [stop] if that returned an error.
    The goroutine runs interleaved with the loop and the other callers. *)

Section Handler.

Context {Payload Env Conn : Type}.
Variable capacity : nat.
Variable config : @EventConfig Payload Env.
Variable JSON_Send : Conn → @iface Payload → option Conn.

(** Where the goroutine stands. *)
Inductive handler : Type :=
  | h_listen (ws : Conn)                (* before [events.listen()] *)
  | h_range (ws : Conn) (c : chan_id)   (* in [serveWebsocket], at the range *)
  | h_stop (c : chan_id)                (* [serveWebsocket] returned an error *)
  | h_done (c : chan_id) (err : bool).  (* returned; [err] as [serveWebsocket] *)

(** One move of the goroutine, with the messages it sends on the
    connection: [listen] and the send of the snapshot; one receive of the
    range and the send of the value; or [stop]. *)
Definition handler_step (env : Env) (h : handler) (s : @system Payload)
  : result (handler * list (@iface Payload) * @system Payload) :=
  match h with
  | h_listen ws =>
      do r <- Events_listen_cap capacity config env s;
      match JSON_Send ws r.1.1 with
      | Some ws' => Ok (h_range ws' r.1.2, [r.1.1], r.2)
      | None => Ok (h_stop r.1.2, [], r.2)
      end
  | h_range ws c =>
      do r <- chan_recv c s;
      match r.1 with
      | Some event =>
          match JSON_Send ws event with
          | Some ws' => Ok (h_range ws' c, [event], r.2)
          | None => Ok (h_stop c, [], r.2)
          end
      | None => Ok (h_done c false, [], r.2)
      end
  | h_stop c =>
      do s1 <- Events_stop c s; Ok (h_done c true, [], s1)
  | h_done c err => Ok (h_done c err, [], s)
  end.

(** A schedule: a move of the goroutine (in the environment [env]), or an
    action of the loop or of another caller. *)
Inductive move : Type :=
  | mv_handler (env : Env)
  | mv_other (a : @action Payload Env).

Fixpoint serve (sched : list move) (h : handler) (s : @system Payload)
  : result (handler * list (@iface Payload) * @system Payload) :=
  match sched with
  | [] => Ok (h, [], s)
  | mv_handler env :: sched' =>
      do r1 <- handler_step env h s;
      do r2 <- serve sched' r1.1.1 r1.2;
      Ok (r2.1.1, r1.1.2 ++ r2.1.2, r2.2)
  | mv_other a :: sched' =>
      do r1 <- step capacity config a s;
      serve sched' h r1.2
  end.

(** What holds of the goroutine's queue wherever it stands: it exists; and
    once the goroutine has returned it is outside the registry, and closed
    and empty if [serveWebsocket] returned nil. *)
Definition handler_inv (h : handler) (s : @system Payload) : Prop :=
  match h with
  | h_listen _ => True
  | h_range _ c => is_Some (chans s !! c)
  | h_stop c => is_Some (chans s !! c)
  | h_done c err =>
      clients s !! c = None ∧
      ∃ ch, chans s !! c = Some ch ∧ (err = false → closed ch = true ∧ buf ch = [])
  end.

End Handler.

(** ** src/events.go: the value the loop holds *)


(** ** REST resources: src/rest.go *)

(** [StatusUnprocessableEntity] of the file and the net/http statuses it
    uses. *)
Definition StatusUnprocessableEntity : Z := 422.
Definition StatusNoContent : Z := 204.
Definition StatusNotFound : Z := 404.
Definition StatusMethodNotAllowed : Z := 405.
Definition StatusUnsupportedMediaType : Z := 415.
Definition StatusNotImplemented : Z := 501.

(** Values of the Go type [error]: a [web.Error{Status, Err}], whose [Err]
    may be nil, or any other error, known by the text of its [Error()]. *)
#[warnings="-register-all"]
Inductive error : Type :=
  | web_Error (Status : Z) (Err : option error)
  | other_error (text : string).

(** [func (err Error) Error() string], extended to the other errors. *)
Fixpoint Error_Error (err : error) : string :=
  match err with
  | web_Error Status None => "HTTP " +:+ pretty Status
  | web_Error _ (Some Err) => Error_Error Err
  | other_error text => text
  end.

(** [Errorf(status, f, args...)], with [text] the formatted message. *)
Definition Errorf (status : Z) (text : string) : error :=
  web_Error status (Some (other_error text)).

Definition RequestError (err : error) : error :=
  web_Error StatusUnprocessableEntity (Some err).

Definition RequestErrorf (text : string) : error :=
  Errorf StatusUnprocessableEntity text.

(** [strings.Split(s, "/")]: the substrings between the slashes, one more
    than there are slashes. *)
Fixpoint strings_Split (s : string) : list string :=
  match s with
  | EmptyString => [EmptyString]
  | String a s' =>
      if decide (a = "/"%char) then EmptyString :: strings_Split s'
      else match strings_Split s' with
           | [] => [String a EmptyString]
           | name :: names => String a name :: names
           end
  end.

Section Slices.

Context {A : Type}.

(** [l[i]] and [l[i] = x] on a slice; an index out of range panics, which
    is [None]. *)
Definition slice_index (l : list A) (i : Z) : option A :=
  if decide (0 ≤ i)%Z then l !! Z.to_nat i else None.

Definition slice_assign (l : list A) (i : Z) (x : A) : option (list A) :=
  if decide (0 ≤ i < Z.of_nat (length l))%Z then Some (<[Z.to_nat i := x]> l) else None.

(** [for i, j := 0, len(l)-1; i < j; i, j = i+1, j-1 { l[i], l[j] = l[j], l[i] }]
    from the indices [i], [j] on, for at most [n] more rounds. *)
Fixpoint reverse_rounds (n : nat) (l : list A) (i j : Z) : option (list A) :=
  if decide (i < j)%Z then
    match n with
    | 0 => None
    | S n' =>
        match slice_index l j, slice_index l i with
        | Some y, Some x =>
            match slice_assign l i y ≫= λ l1, slice_assign l1 j x with
            | Some l2 => reverse_rounds n' l2 (i + 1) (j - 1)
            | None => None
            end
        | _, _ => None
        end
    end
  else Some l.

(** The loop: the distance from [i] to [j] shrinks by two in every round,
    so [j - i] rounds are more than it can take. *)
Definition reverse_loop (l : list A) (i j : Z) : option (list A) :=
  reverse_rounds (Z.to_nat (j - i)) l i j.

End Slices.

Section REST.

(** [W]: whatever the methods of the resources read and change; [Obj]: the
    Go values behind resources and decode targets; [Req]: the rest of an
    [http.Request] (body, query, form). *)
Context {W Obj Req : Type}.

Record Request : Type := {
  Method : string;
  URL_Path : string;
  Content_Type : string;
  raw : Req
}.

(** [type MutableResource interface { ApplyREST() error }], as the method
    bound to its receiver. *)
Definition MutableResource : Type := W → option error * W.

(** A non-nil [Resource]: its value and the methods its type has. *)
#[warnings="-register-all"]
Inductive Resource : Type := mkResource {
  value : Obj;
  Index : option (string → W → (option Resource * option error) * W);
  QueryREST : option (W → Obj * W);
  IntoREST : option (W → Obj * W);
  GetREST : option (W → (option Resource * option error) * W);
  PostREST : option (W → (option Resource * option error) * W);
  PutREST : option (W → (option Resource * option error) * W);
  DeleteREST : option (W → (option Resource * option error) * W);
  ApplyREST : option MutableResource
}.

(** The libraries the file calls. *)
Variable schema_Decode_query : Obj → Req → W → option error * W.
Variable ParseForm : Req → option error.
Variable schema_Decode_form : Obj → Req → W → option error * W.
Variable json_Decode : Obj → Req → W → option error * W.
Variable json_Encode : Obj → W → option error.
(** [fmt.Errorf("Decode query for %T => %T: %v", resource, obj, err)] *)
Variable query_Errorf : Obj → Obj → error → error.

(** Calls on the [http.ResponseWriter]. *)
Inductive wcall : Type :=
  | Header_Set (key val : string)
  | Encode (object : Obj)
  | http_Error (text : string) (code : Z).

Definition readRequest (r : Request) (into : W → Obj * W) (w : W)
  : option error * W :=
  let contentType := Content_Type r in
  let '(object, w1) := into w in
  if decide (contentType = "application/x-www-form-urlencoded") then
    match ParseForm (raw r) with
    | Some err => (Some (RequestError err), w1)
    | None =>
        match schema_Decode_form object (raw r) w1 with
        | (Some err, w2) => (Some (RequestError err), w2)
        | (None, w2) => (None, w2)
        end
    end
  else if decide (contentType = "application/json") then
    match json_Decode object (raw r) w1 with
    | (Some err, w2) => (Some (RequestError err), w2)
    | (None, w2) => (None, w2)
    end
  else
    (Some (Errorf StatusUnsupportedMediaType
             ("Unknown Content-Type: " +:+ contentType)), w1).

Definition readQuery (r : Request) (resource : Resource) (query : W → Obj * W)
    (w : W) : option error * W :=
  let '(obj, w1) := query w in
  match schema_Decode_query obj (raw r) w1 with
  | (Some err, w2) => (Some (RequestError (query_Errorf (value resource) obj err)), w2)
  | (None, w2) => (None, w2)
  end.

Definition writeResponse (object : Obj) (w : W) : list wcall * option error :=
  match json_Encode object w with
  | Some err => ([Header_Set "Content-Type" "application/json"], Some err)
  | None => ([Header_Set "Content-Type" "application/json"; Encode object], None)
  end.

(** [if queryResource, ok := resource.(QueryResource); !ok {} else if err := readQuery(...)] *)
Definition query_step (r : Request) (resource : option Resource) (w : W)
  : option error * W :=
  match resource with
  | Some res =>
      match QueryREST res with
      | Some query => readQuery r res query w
      | None => (None, w)
      end
  | None => (None, w)
  end.

(** [if mutableResource, ok := resource.(MutableResource); ok { mutables = append(mutables, mutableResource) }] *)
Definition append_mutable (mutables : list MutableResource) (resource : option Resource)
  : list MutableResource :=
  match resource ≫= ApplyREST with
  | Some mutableResource => mutables ++ [mutableResource]
  | None => mutables
  end.

(** The [for _, name := range strings.Split(path, "/")] of [lookup]: the
    resource reached, the mutables collected and the error returned. *)
Fixpoint lookup_names (r : Request) (names : list string)
    (resource : option Resource) (mutables : list MutableResource) (w : W)
  : (option Resource * list MutableResource * option error) * W :=
  match names with
  | [] => ((resource, mutables, None), w)
  | name :: names' =>
      match query_step r resource w with
      | (Some err, w1) => ((resource, [], Some err), w1)
      | (None, w1) =>
          match resource ≫= Index with
          | None => ((resource, [], Some (web_Error StatusNotFound None)), w1)
          | Some index =>
              match index name w1 with
              | ((_, Some err), w2) => ((resource, [], Some err), w2)
              | ((None, None), w2) =>
                  ((None, [], Some (web_Error StatusNotFound None)), w2)
              | ((Some nextResource, None), w2) =>
                  lookup_names r names' (Some nextResource)
                    (append_mutable mutables (Some nextResource)) w2
              end
          end
      end
  end.

(** [api.lookup(r)]; [None] is a run-time panic. *)
Definition API_lookup (root : option Resource) (r : Request) (w : W)
  : option ((option Resource * list MutableResource * option error) * W) :=
  match lookup_names r (strings_Split (URL_Path r)) root (append_mutable [] root) w with
  | ((resource, _, Some err), w1) => Some ((resource, [], Some err), w1)
  | ((resource, mutables, None), w1) =>
      match query_step r resource w1 with
      | (Some err, w2) => Some ((resource, [], Some err), w2)
      | (None, w2) =>
          mutables' ← reverse_loop mutables 0 (Z.of_nat (length mutables) - 1);
          Some ((resource, mutables', None), w2)
      end
  end.

(** The [for _, resource := range parents] of [apply]. *)
Fixpoint apply_parents (parents : list MutableResource) (w : W) : option error * W :=
  match parents with
  | [] => (None, w)
  | resource :: parents' =>
      match resource w with
      | (Some err, w1) => (Some err, w1)
      | (None, w1) => apply_parents parents' w1
      end
  end.

Definition API_apply (resource : option MutableResource)
    (parents : list MutableResource) (w : W) : option error * W :=
  match resource with
  | Some applyREST =>
      match applyREST w with
      | (Some err, w1) => (Some err, w1)
      | (None, w1) => apply_parents parents w1
      end
  | None => apply_parents parents w
  end.

(** The end of [handle] for the methods that change things: [apply], then
    [writeResponse]. *)
Definition apply_and_write (ret : Resource) (mutableResources : list MutableResource)
    (w : W) : (list wcall * option error) * W :=
  match API_apply (ApplyREST ret) mutableResources w with
  | (Some err, w1) => (([], Some err), w1)
  | (None, w1) => (writeResponse (value ret) w1, w1)
  end.

(** [api.handle(w, r)]: the calls on the response writer and the error
    returned. *)
Definition API_handle (root : option Resource) (r : Request) (w : W)
  : option ((list wcall * option error) * W) :=
  lk ← API_lookup root r w;
  let '((resource, mutableResources, err), w1) := lk in
  match err with
  | Some err => Some (([], Some err), w1)
  | None =>
      if decide (Method r = "GET") then
        match resource ≫= GetREST with
        | None => Some (([], Some (web_Error StatusMethodNotAllowed None)), w1)
        | Some getREST =>
            match getREST w1 with
            | ((_, Some err), w2) => Some (([], Some err), w2)
            | ((None, None), w2) => Some (([], Some (web_Error StatusNotFound None)), w2)
            | ((Some ret, None), w2) => Some (writeResponse (value ret) w2, w2)
            end
        end
      else if decide (Method r = "POST") then
        match resource ≫= IntoREST, resource ≫= PostREST with
        | Some intoREST, Some postREST =>
            match readRequest r intoREST w1 with
            | (Some err, w2) => Some (([], Some err), w2)
            | (None, w2) =>
                match postREST w2 with
                | ((_, Some err), w3) => Some (([], Some err), w3)
                | ((None, None), w3) =>
                    Some (([], Some (web_Error StatusNoContent None)), w3)
                | ((Some ret, None), w3) => Some (apply_and_write ret mutableResources w3)
                end
            end
        | _, _ => Some (([], Some (web_Error StatusMethodNotAllowed None)), w1)
        end
      else if decide (Method r = "PUT") then
        match resource ≫= IntoREST, resource ≫= PutREST with
        | Some intoREST, Some putREST =>
            match readRequest r intoREST w1 with
            | (Some err, w2) => Some (([], Some err), w2)
            | (None, w2) =>
                match putREST w2 with
                | ((_, Some err), w3) => Some (([], Some err), w3)
                | ((None, None), w3) =>
                    Some (([], Some (web_Error StatusNotFound None)), w3)
                | ((Some ret, None), w3) => Some (apply_and_write ret mutableResources w3)
                end
            end
        | _, _ => Some (([], Some (web_Error StatusMethodNotAllowed None)), w1)
        end
      else if decide (Method r = "DELETE") then
        match resource ≫= DeleteREST with
        | None => Some (([], Some (web_Error StatusMethodNotAllowed None)), w1)
        | Some deleteREST =>
            match deleteREST w1 with
            | ((_, Some err), w2) => Some (([], Some err), w2)
            | ((None, None), w2) =>
                Some (([], Some (web_Error StatusNoContent None)), w2)
            | ((Some ret, None), w2) => Some (apply_and_write ret mutableResources w2)
            end
        end
      else Some (([], Some (web_Error StatusNotImplemented None)), w1)
  end.

(** [api.ServeHTTP(w, r)]: the calls on the response writer. *)
Definition API_ServeHTTP (root : option Resource) (r : Request) (w : W)
  : option (list wcall * W) :=
  h ← API_handle root r w;
  let '((calls, err), w1) := h in
  match err with
  | None => Some (calls, w1)
  | Some (other_error text) => Some (calls ++ [http_Error text 500], w1)
  | Some (web_Error Status (Some Err)) =>
      Some (calls ++ [http_Error (Error_Error Err) Status], w1)
  | Some (web_Error Status None) => Some (calls ++ [http_Error "" Status], w1)
  end.

End REST.

(** Whether [s] has no slash. *)
Fixpoint no_slash (s : string) : bool :=
  match s with
  | EmptyString => true
  | String a s' => if decide (a = "/"%char) then false else no_slash s'
  end.

Section RESTViews.

Context {W Obj Req : Type}.

(** One more name looked up under [resource], reached with the mutables
    [mutables] (innermost first): what [lookup] does for the last name of
    a path. *)
Definition lookup_child
    (schema_Decode_query : Obj → Req → W → option error * W)
    (query_Errorf : Obj → Obj → error → error)
    (r : @Request Req) (name : string)
    (resource : option (@Resource W Obj))
    (mutables : list (@MutableResource W)) (w : W)
  : (option (@Resource W Obj) * list (@MutableResource W) * option error) * W :=
  match resource ≫= Index with
  | None => ((resource, [], Some (web_Error StatusNotFound None)), w)
  | Some index =>
      match index name w with
      | ((_, Some err), w2) => ((resource, [], Some err), w2)
      | ((None, None), w2) => ((None, [], Some (web_Error StatusNotFound None)), w2)
      | ((Some nextResource, None), w2) =>
          match query_step schema_Decode_query query_Errorf r (Some nextResource) w2 with
          | (Some err, w3) => ((Some nextResource, [], Some err), w3)
          | (None, w3) =>
              ((Some nextResource,
                match ApplyREST nextResource with
                | Some mutableResource => mutableResource :: mutables
                | None => mutables
                end, None), w3)
          end
      end
  end.

End RESTViews.


(** A small tree of resources: the root indexes [a], which indexes [leaf];
    every [ApplyREST] and [GetREST] leaves its name in the world, a list of
    strings. *)
Definition rest_value : @Resource (list string) string :=
  mkResource "value" None None None None None None None None.

Definition rest_leaf : @Resource (list string) string :=
  mkResource "leaf" None None None
    (Some (λ w, ((Some rest_value, None), w ++ ["GET leaf"])))
    None None None
    (Some (λ w, (None, w ++ ["apply leaf"]))).

Definition rest_a : @Resource (list string) string :=
  mkResource "a"
    (Some (λ name w, if decide (name = "leaf")
                     then ((Some rest_leaf, None), w) else ((None, None), w)))
    None None None None None None
    (Some (λ w, (None, w ++ ["apply a"]))).

Definition rest_root : @Resource (list string) string :=
  mkResource "root"
    (Some (λ name w, if decide (name = "a")
                     then ((Some rest_a, None), w) else ((None, None), w)))
    None None None None None None None.

Definition rest_request (method path : string) : @Request unit :=
  {| Method := method; URL_Path := path; Content_Type := ""; raw := () |}.

(** Decoders that accept everything and change nothing. *)
Definition decode_ok : string → unit → list string → option error * list string :=
  λ _ _ w, (None, w).

Definition rest_query_Errorf : string → string → error → error := λ _ _ err, err.

(** ** The registry: visits, publish and close *)

Section Core.

Context {Payload : Type}.
Implicit Types (s : @system Payload) (c : chan_id) (ch : @chan Payload)
  (e : @Event Payload) (f : @chan Payload → @chan Payload * bool).

Lemma system_eq s s' :
  chans s = chans s' → clients s = clients s' →
  EventPush_closed s = EventPush_closed s' →
  registerChan_closed s = registerChan_closed s' →
  unregisterChan_closed s = unregisterChan_closed s' →
  next_chan s = next_chan s' → s = s'.
Proof. destruct s, s'; simpl; intros; by subst. Qed.

Lemma registry_open_lookup s c :
  registry_open s → is_Some (clients s !! c) →
  closed <$> chans s !! c = Some false.
Proof. intros Hs [b Hb]. exact (Hs c b Hb). Qed.

Lemma open_lookup s c :
  closed <$> chans s !! c = Some false ↔
  ∃ ch, chans s !! c = Some ch ∧ closed ch = false.
Proof.
  destruct (chans s !! c) as [ch|]; simpl; split.
  - intros [= H]. eauto.
  - intros (ch' & [= <-] & ->). done.
  - done.
  - intros (? & ? & ?). done.
Qed.

Lemma clientSet_send_open s c e :
  closed <$> chans s !! c = Some false →
  clientSet_send c e s = Ok (on_chan (deliver e) c s).
Proof.
  intros (ch & Hch & Hopen)%open_lookup.
  unfold clientSet_send, chan_try_send, clientSet_drop, chan_close, on_chan, deliver.
  rewrite Hch, Hopen. simpl.
  destruct (length (buf ch) <? cap ch); simpl; by rewrite ?Hch, ?Hopen.
Qed.

Lemma clientSet_drop_open s c :
  closed <$> chans s !! c = Some false →
  clientSet_drop c s = Ok (on_chan shut c s).
Proof.
  intros (ch & Hch & Hopen)%open_lookup.
  unfold clientSet_drop, chan_close, on_chan, shut.
  by rewrite Hch, Hopen.
Qed.

Lemma on_chan_chans_eq f c s ch :
  chans s !! c = Some ch → chans (on_chan f c s) !! c = Some (f ch).1.
Proof. intros H. unfold on_chan. rewrite H. simpl. by rewrite lookup_insert_eq. Qed.

Lemma on_chan_chans_ne f c s c' :
  c' ≠ c → chans (on_chan f c s) !! c' = chans s !! c'.
Proof.
  intros H. unfold on_chan. destruct (chans s !! c); simpl; [|done].
  by rewrite lookup_insert_ne.
Qed.

Lemma on_chan_clients_eq f c s ch :
  chans s !! c = Some ch →
  clients (on_chan f c s) !! c = if (f ch).2 then clients s !! c else None.
Proof.
  intros H. unfold on_chan. rewrite H. simpl.
  destruct (f ch).2; [done|]. by rewrite lookup_delete_eq.
Qed.

Lemma on_chan_clients_ne f c s c' :
  c' ≠ c → clients (on_chan f c s) !! c' = clients s !! c'.
Proof.
  intros H. unfold on_chan. destruct (chans s !! c) as [ch|]; simpl; [|done].
  destruct (f ch).2; [done|]. by rewrite lookup_delete_ne.
Qed.

Lemma on_chan_flags f c s :
  EventPush_closed (on_chan f c s) = EventPush_closed s ∧
  registerChan_closed (on_chan f c s) = registerChan_closed s ∧
  unregisterChan_closed (on_chan f c s) = unregisterChan_closed s ∧
  next_chan (on_chan f c s) = next_chan s.
Proof. unfold on_chan. by destruct (chans s !! c). Qed.

Lemma on_chan_registry_open f c s :
  (∀ ch, closed ch = false → (f ch).2 = true → closed (f ch).1 = false) →
  registry_open s → registry_open (on_chan f c s).
Proof.
  intros Hf Hs c' b Hb.
  destruct (decide (c' = c)) as [->|Hne].
  - destruct (chans s !! c) as [ch|] eqn:Hch.
    + rewrite (on_chan_clients_eq _ _ _ _ Hch) in Hb.
      rewrite (on_chan_chans_eq _ _ _ _ Hch). simpl.
      destruct (f ch).2 eqn:Hk; [|done].
      pose proof (registry_open_lookup s c Hs (mk_is_Some _ _ Hb)) as Ho. rewrite Hch in Ho. simplify_eq/=.
      f_equal. by apply Hf.
    + unfold on_chan in *. rewrite Hch in *. exact (Hs c b Hb).
  - rewrite on_chan_clients_ne in Hb by done. rewrite on_chan_chans_ne by done.
    exact (Hs c' b Hb).
Qed.

Lemma visited_cons_absent keys s c0 c :
  clients s !! c0 = None → visited (c0 :: keys) s c ↔ visited keys s c.
Proof.
  intros H0. unfold visited. split.
  - intros [[->|?]%elem_of_cons [b Hb]]; [congruence|]. split; [done|by exists b].
  - intros [? ?]. split; [by apply elem_of_cons; right|done].
Qed.

Lemma visited_cons_ne f keys s c0 c :
  c ≠ c0 → visited keys (on_chan f c0 s) c ↔ visited (c0 :: keys) s c.
Proof.
  intros Hne. unfold visited. rewrite on_chan_clients_ne by done. split.
  - intros [? ?]. split; [by apply elem_of_cons; right|done].
  - intros [[->|?]%elem_of_cons ?]; [done|]. by split.
Qed.

Lemma range_clientSet_post body f keys s :
  (∀ c s, closed <$> chans s !! c = Some false → body c s = Ok (on_chan f c s)) →
  (∀ ch, closed ch = false → (f ch).2 = true → closed (f ch).1 = false) →
  NoDup keys → registry_open s →
  ∃ s', range_clientSet body keys s = Ok s' ∧ range_post f keys s s' ∧
        registry_open s'.
Proof.
  intros Hbody Hf Hnd. revert s.
  induction Hnd as [|c0 keys Hc0 Hnd IH]; intros s Hs; simpl.
  - exists s. split; [done|]. split; [|done].
    split; try done. intros c ch [H _]. by apply elem_of_nil in H.
  - destruct (clients s !! c0) as [b|] eqn:Hb.
    + pose proof (registry_open_lookup s c0 Hs (mk_is_Some _ _ Hb)) as Hopen.
      rewrite (Hbody _ _ Hopen). simpl.
      destruct (IH (on_chan f c0 s)) as (s' & Hrun & Hpost & Hs');
        [by apply on_chan_registry_open|].
      exists s'. split; [done|]. split; [|done].
      destruct Hpost as [Hvis Hoth ? ? ? ?].
      destruct (on_chan_flags f c0 s) as (? & ? & ? & ?).
      assert (¬ visited keys (on_chan f c0 s) c0) as Hvis0 by (by intros [? _]).
      split; try congruence.
      * intros c ch Hc Hch. destruct (decide (c = c0)) as [->|Hne].
        -- destruct (Hoth c0 Hvis0) as [-> ->].
           by rewrite (on_chan_chans_eq _ _ _ _ Hch), (on_chan_clients_eq _ _ _ _ Hch).
        -- apply (visited_cons_ne f) in Hc; [|done].
           rewrite <-(on_chan_chans_ne f c0 s c) in Hch by done.
           destruct (Hvis c ch Hc Hch) as [-> ->].
           by rewrite on_chan_clients_ne.
      * intros c Hc. assert (c ≠ c0) as Hne.
        { intros ->. apply Hc. split; [by apply elem_of_cons; left|by exists b]. }
        rewrite <-(visited_cons_ne f) in Hc by done.
        destruct (Hoth c Hc) as [-> ->].
        by rewrite on_chan_chans_ne, on_chan_clients_ne.
    + destruct (IH s Hs) as (s' & Hrun & Hpost & Hs').
      exists s'. split; [done|]. split; [|done].
      destruct Hpost as [Hvis Hoth ? ? ? ?].
      split; try done.
      * intros c ch Hc. apply Hvis. by apply (visited_cons_absent keys s c0).
      * intros c Hc. apply Hoth. by rewrite <-(visited_cons_absent keys s c0).
Qed.

End Core.

Section Registry.

Context {Payload : Type}.
Implicit Types (s : @system Payload) (c : chan_id) (ch : @chan Payload)
  (e : @Event Payload) (f : @chan Payload → @chan Payload * bool).

Lemma range_post_unique f keys s s1 s2 :
  registry_open s →
  range_post f keys s s1 → range_post f keys s s2 → s1 = s2.
Proof.
  intros Hs [Hv1 Ho1 ? ? ? ?] [Hv2 Ho2 ? ? ? ?].
  assert (∀ c, chans s1 !! c = chans s2 !! c ∧ clients s1 !! c = clients s2 !! c) as H.
  { intros c. destruct (decide (visited keys s c)) as [Hc|Hc].
    - destruct (proj1 (open_lookup s c) (registry_open_lookup s c Hs (proj2 Hc)))
        as (ch & Hch & _).
      destruct (Hv1 c ch Hc Hch) as [-> ->]. by destruct (Hv2 c ch Hc Hch) as [-> ->].
    - destruct (Ho1 c Hc) as [-> ->]. by destruct (Ho2 c Hc) as [-> ->]. }
  apply system_eq; try congruence; apply map_eq; intros c; apply H.
Qed.

Lemma range_post_perm f keys keys' s s' :
  keys ≡ₚ keys' → range_post f keys s s' → range_post f keys' s s'.
Proof.
  intros Hp [Hv Ho ? ? ? ?].
  assert (∀ c, visited keys' s c ↔ visited keys s c) as Hvis.
  { intros c. unfold visited. by rewrite Hp. }
  split; try done.
  - intros c ch Hc. apply Hv. by apply Hvis.
  - intros c Hc. apply Ho. by rewrite <-Hvis.
Qed.

Lemma clientSet_keys_NoDup s : NoDup (clientSet_keys s).
Proof. apply NoDup_fst_map_to_list. Qed.

Lemma visited_clientSet_keys s c :
  visited (clientSet_keys s) s c ↔ is_Some (clients s !! c).
Proof.
  unfold visited, clientSet_keys. split; [by intros [_ ?]|].
  intros [b Hb]. split; [|by exists b].
  apply list_elem_of_fmap. exists (c, b). split; [done|].
  by apply elem_of_map_to_list.
Qed.

Lemma deliver_keeps_open e ch :
  closed ch = false → (deliver e ch).2 = true → closed (deliver e ch).1 = false.
Proof. unfold deliver. by destruct (length (buf ch) <? cap ch). Qed.

Lemma shut_keeps_open ch :
  closed ch = false → (shut ch).2 = true → closed (shut ch).1 = false.
Proof. done. Qed.

(** [publish] visits the keys in any order with the same result. *)
Lemma clientSet_publish_in_post keys e s :
  NoDup keys → registry_open s →
  ∃ s', clientSet_publish_in keys e s = Ok s' ∧
        range_post (deliver e) keys s s' ∧ registry_open s'.
Proof.
  intros. apply range_clientSet_post; try done.
  - intros. by apply clientSet_send_open.
  - apply deliver_keeps_open.
Qed.

Lemma clientSet_close_in_post keys s :
  NoDup keys → registry_open s →
  ∃ s', clientSet_close_in keys s = Ok s' ∧
        range_post shut keys s s' ∧ registry_open s'.
Proof.
  intros. apply range_clientSet_post; try done.
  intros. by apply clientSet_drop_open.
Qed.

Lemma clientSet_publish_order keys e s :
  keys ≡ₚ clientSet_keys s → registry_open s →
  clientSet_publish_in keys e s = clientSet_publish e s.
Proof.
  intros Hp Hs.
  destruct (clientSet_publish_in_post keys e s) as (s1 & H1 & P1 & _);
    [by rewrite Hp; apply clientSet_keys_NoDup | done |].
  destruct (clientSet_publish_in_post (clientSet_keys s) e s) as (s2 & H2 & P2 & _);
    [apply clientSet_keys_NoDup | done |].
  unfold clientSet_publish. rewrite H1, H2. f_equal.
  apply (range_post_unique (deliver e) keys s); [done..|].
  by apply (range_post_perm _ (clientSet_keys s)).
Qed.

Lemma clientSet_close_order keys s :
  keys ≡ₚ clientSet_keys s → registry_open s →
  clientSet_close_in keys s = clientSet_close s.
Proof.
  intros Hp Hs.
  destruct (clientSet_close_in_post keys s) as (s1 & H1 & P1 & _);
    [by rewrite Hp; apply clientSet_keys_NoDup | done |].
  destruct (clientSet_close_in_post (clientSet_keys s) s) as (s2 & H2 & P2 & _);
    [apply clientSet_keys_NoDup | done |].
  unfold clientSet_close. rewrite H1, H2. f_equal.
  apply (range_post_unique shut keys s); [done..|].
  by apply (range_post_perm _ (clientSet_keys s)).
Qed.

End Registry.

(** ** Steps of an execution *)

Section Steps.

Context {Payload Env : Type}.
Variable capacity : nat.
Variable config : @EventConfig Payload Env.
Implicit Types (s : @system Payload) (c : chan_id) (ch : @chan Payload)
  (e : @Event Payload) (a : @action Payload Env) (t : list (@action Payload Env)).

Abbreviation step := (step capacity config).
Abbreviation exec := (exec capacity config).

Lemma range_post_is_Some f keys s s' c :
  registry_open s → range_post f keys s s' →
  is_Some (chans s' !! c) → is_Some (chans s !! c).
Proof.
  intros Hs [Hv Ho _ _ _ _] H'.
  destruct (decide (visited keys s c)) as [Hc|Hc].
  - destruct (proj1 (open_lookup s c) (registry_open_lookup s c Hs (proj2 Hc)))
      as (ch & Hch & _). by exists ch.
  - destruct (Ho c Hc) as [<- _]. done.
Qed.

Lemma range_post_inv f keys s s' :
  inv s → range_post f keys s s' → registry_open s' → inv s'.
Proof.
  intros [Hs Ha] Hpost Hs'. split; [done|].
  intros c ch' Hc. rewrite (post_next _ _ _ _ Hpost).
  destruct (range_post_is_Some f keys s s' c Hs Hpost (mk_is_Some _ _ Hc)) as [ch Hch].
  exact (Ha c ch Hch).
Qed.

Lemma clientSet_publish_post e s :
  registry_open s →
  ∃ s', clientSet_publish e s = Ok s' ∧
        range_post (deliver e) (clientSet_keys s) s s' ∧ registry_open s'.
Proof. intros. apply clientSet_publish_in_post; [apply clientSet_keys_NoDup|done]. Qed.

Lemma run_deferred_post s :
  registry_open s →
  ∃ s', run_deferred s = Ok s' ∧ registry_open s' ∧
        (∀ c ch, is_Some (clients s !! c) → chans s !! c = Some ch →
                 chans s' !! c = Some (shut ch).1) ∧
        (∀ c, clients s !! c = None → chans s' !! c = chans s !! c) ∧
        clients s' = ∅ ∧
        EventPush_closed s' = EventPush_closed s ∧
        registerChan_closed s' = true ∧ unregisterChan_closed s' = true ∧
        next_chan s' = next_chan s.
Proof.
  intros Hs. unfold run_deferred. simpl.
  set (s2 := System _ _ _ _ _ _).
  destruct (clientSet_close_in_post (clientSet_keys s2) s2) as (s' & Hrun & Hpost & Hs');
    [apply clientSet_keys_NoDup | done |].
  exists s'. split; [done|]. split; [done|].
  destruct Hpost as [Hv Ho ? ? ? ?].
  repeat split; try done.
  - intros c ch Hc Hch. apply (Hv c ch); [|done]. by apply visited_clientSet_keys.
  - intros c Hc. apply Ho. rewrite visited_clientSet_keys. simpl. rewrite Hc.
    by intros [? ?].
  - apply map_eq. intros c. rewrite lookup_empty.
    destruct (clients s !! c) as [b|] eqn:Hb.
    + assert (is_Some (clients s2 !! c)) as Hc by (by exists b).
      destruct (proj1 (open_lookup s2 c) (registry_open_lookup s2 c Hs Hc))
        as (ch & Hch & _).
      apply visited_clientSet_keys in Hc. by destruct (Hv c ch Hc Hch) as [_ ->].
    + destruct (Ho c) as [_ ->]; [|done].
      rewrite visited_clientSet_keys. simpl. rewrite Hb. by intros [? ?].
Qed.

Lemma Events_listen_cap_open n env s :
  registerChan_closed s = false →
  Events_listen_cap n config env s =
    Ok ((Events_state config env, next_chan s),
        System (<[next_chan s := make_chan n]> (chans s))
               (<[next_chan s := true]> (clients s))
               (EventPush_closed s) (registerChan_closed s)
               (unregisterChan_closed s) (S (next_chan s))).
Proof.
  intros H. unfold Events_listen_cap, new_chan, registerChan_send. simpl.
  by rewrite H.
Qed.

Lemma Events_listen_cap_closed n env s :
  registerChan_closed s = true →
  Events_listen_cap n config env s = Panic send_on_closed_channel.
Proof.
  intros H. unfold Events_listen_cap, new_chan, registerChan_send. simpl.
  by rewrite H.
Qed.

Lemma Events_stop_open c s :
  unregisterChan_closed s = false →
  Events_stop c s = Ok (clientSet_unregister c s).
Proof. intros H. unfold Events_stop, unregisterChan_send. by rewrite H. Qed.

Lemma Events_stop_closed c s :
  unregisterChan_closed s = true →
  Events_stop c s = Panic send_on_closed_channel.
Proof. intros H. unfold Events_stop, unregisterChan_send. by rewrite H. Qed.

Lemma listen_inv n s :
  inv s →
  inv (System (<[next_chan s := make_chan n]> (chans s))
              (<[next_chan s := true]> (clients s))
              (EventPush_closed s) (registerChan_closed s)
              (unregisterChan_closed s) (S (next_chan s))).
Proof.
  intros [Hs Ha]. split.
  - intros c b. simpl. intros Hb.
    destruct (decide (c = next_chan s)) as [->|Hne].
    + by rewrite lookup_insert_eq.
    + rewrite lookup_insert_ne in Hb by done. rewrite lookup_insert_ne by done.
      exact (Hs c b Hb).
  - intros c ch. simpl. intros Hc.
    destruct (decide (c = next_chan s)) as [->|Hne]; [lia|].
    rewrite lookup_insert_ne in Hc by done.
    pose proof (Ha c ch Hc) as Hlt. simpl in Hlt. lia.
Qed.

Lemma unregister_inv c s : inv s → inv (clientSet_unregister c s).
Proof.
  intros [Hs Ha]. split; [|done].
  intros c' b. simpl. intros Hb.
  apply lookup_delete_Some in Hb as [_ Hb]. exact (Hs c' b Hb).
Qed.

Lemma chan_recv_inv c s r :
  inv s → chan_recv c s = Ok r → inv r.2.
Proof.
  intros [Hs Ha]. unfold chan_recv.
  destruct (chans s !! c) as [ch|] eqn:Hch; [|done].
  destruct (buf ch) as [|v rest] eqn:Hbuf.
  - destruct (closed ch); [|done]. by intros [= <-].
  - intros [= <-]. simpl. split.
    + intros c' b Hb. simpl in *.
      destruct (decide (c' = c)) as [->|Hne].
      * rewrite lookup_insert_eq. simpl.
        pose proof (registry_open_lookup s c Hs (mk_is_Some _ _ Hb)) as Ho.
        by rewrite Hch in Ho.
      * rewrite lookup_insert_ne by done. exact (Hs c' b Hb).
    + intros c' ch'. simpl. intros Hc'.
      destruct (decide (c' = c)) as [->|Hne].
      * exact (Ha c ch Hch).
      * rewrite lookup_insert_ne in Hc' by done. exact (Ha c' ch' Hc').
Qed.

(** Every step keeps the invariant. *)
Lemma step_inv a s o s' : inv s → step a s = Ok (o, s') → inv s'.
Proof.
  intros Hinv. destruct a as [env|c|e| |c]; simpl.
  - destruct (registerChan_closed s) eqn:Hr.
    + by rewrite Events_listen_cap_closed.
    + rewrite Events_listen_cap_open by done. simpl. intros [= _ <-].
      by apply listen_inv.
  - destruct (unregisterChan_closed s) eqn:Hu.
    + by rewrite Events_stop_closed.
    + rewrite Events_stop_open by done. simpl. intros [= _ <-].
      by apply unregister_inv.
  - destruct (EventPush_closed s); [done|].
    destruct (clientSet_publish_post e s (proj1 Hinv)) as (s1 & -> & Hpost & Hs1).
    simpl. intros [= _ <-]. by apply (range_post_inv (deliver e) (clientSet_keys s) s).
  - destruct (EventPush_closed s); [done|].
    set (s0 := System _ _ _ _ _ _).
    assert (inv s0) as Hinv0 by done.
    destruct (run_deferred_post s0 (proj1 Hinv0))
      as (s1 & -> & Hs1 & Hv & Ho & _ & _ & _ & _ & Hn).
    simpl. intros [= _ <-]. split; [done|].
    intros c ch1 Hc1. rewrite Hn.
    destruct (clients s0 !! c) as [b|] eqn:Hb.
    + destruct (proj1 (open_lookup s0 c)
                  (registry_open_lookup s0 c (proj1 Hinv0) (mk_is_Some _ _ Hb)))
        as (ch & Hch & _).
      exact (proj2 Hinv0 c ch Hch).
    + rewrite (Ho c Hb) in Hc1. exact (proj2 Hinv0 c ch1 Hc1).
  - destruct (chan_recv c s) as [r| |] eqn:Hrecv; [|done..].
    simpl. intros [= _ <-]. by apply (chan_recv_inv c s).
Qed.

Lemma exec_cons a t s obs s' :
  exec (a :: t) s = Ok (obs, s') →
  ∃ o1 s1 o2, step a s = Ok (o1, s1) ∧ exec t s1 = Ok (o2, s') ∧ obs = o1 ++ o2.
Proof.
  simpl. destruct (step a s) as [[o1 s1]| |]; [|done..]. simpl.
  destruct (exec t s1) as [[o2 s2]| |] eqn:H2; [|done..]. simpl.
  intros [= ? ?]. subst. by exists o1, s1, o2.
Qed.

Lemma exec_inv t s obs s' : inv s → exec t s = Ok (obs, s') → inv s'.
Proof.
  revert s obs. induction t as [|a t IH]; intros s obs Hinv.
  - by intros [= _ <-].
  - intros (o1 & s1 & o2 & H1 & H2 & _)%exec_cons.
    eapply IH; [|done]. by eapply step_inv.
Qed.

Lemma MakeEvents_inv : inv (@MakeEvents Payload).
Proof. split; intros c x; unfold MakeEvents; simpl; by rewrite lookup_empty. Qed.

(** [run] returns when the source is closed and handles nothing after
    that. *)
Lemma Events_run_closed inbox s :
  Events_run (m_closed :: inbox) s = do s' <- run_deferred s; Ok s'.
Proof. simpl. by destruct (run_deferred s). Qed.

(** Without new registrations [run] handles any sequence of messages. *)
Lemma Events_run_total inbox : ∀ s,
  registry_open s →
  Forall (λ m, ∀ c, m ≠ m_register c) inbox →
  ∃ s', Events_run inbox s = Ok s' ∧ registry_open s'.
Proof.
  induction inbox as [|m inbox IH]; intros s Hs Hin; [by exists s|].
  apply Forall_cons in Hin as [Hm Hin].
  destruct m as [c|c|e|].
  - by destruct (Hm c).
  - simpl. apply IH; [|done].
    intros c' b. simpl. intros Hb.
    apply lookup_delete_Some in Hb as [_ Hb]. exact (Hs c' b Hb).
  - simpl. destruct (clientSet_publish_post e s Hs) as (s1 & -> & _ & Hs1).
    simpl. by apply IH.
  - rewrite Events_run_closed.
    destruct (run_deferred_post s Hs) as (s1 & -> & Hs1 & _). by exists s1.
Qed.

Lemma received_app c (o1 o2 : list (@observation Payload)) :
  received c (o1 ++ o2) = received c o1 ++ received c o2.
Proof.
  induction o1 as [|[c' [v|]] o1 IH]; simpl; [done| |done].
  case_decide; [by rewrite IH|done].
Qed.

(** A receive takes the oldest queued value of its channel and touches
    nothing else. *)
Lemma chan_recv_frame c' s r c ch :
  chan_recv c' s = Ok r → chans s !! c = Some ch →
  clients r.2 = clients s ∧
  ∃ ch1, chans r.2 !! c = Some ch1 ∧
         buf ch = received c [(c', r.1)] ++ buf ch1 ∧
         cap ch1 = cap ch ∧ closed ch1 = closed ch.
Proof.
  unfold chan_recv. intros Hr Hch.
  destruct (chans s !! c') as [ch0|] eqn:Hch0; [|done].
  destruct (buf ch0) as [|v rest] eqn:Hbuf.
  - destruct (closed ch0); [|done]. injection Hr as <-. simpl.
    split; [done|]. by exists ch.
  - injection Hr as <-. simpl. split; [done|].
    destruct (decide (c' = c)) as [->|Hne].
    + rewrite lookup_insert_eq.
      rewrite Hch in Hch0. injection Hch0 as <-.
      eexists. split; [done|]. simpl. by rewrite Hbuf.
    + rewrite lookup_insert_ne by done. by exists ch.
Qed.

(** A channel outside the registry is left alone by every step, except
    that its consumer may take values out of it. *)
Lemma step_unregistered a s o s1 c ch :
  inv s → step a s = Ok (o, s1) →
  clients s !! c = None → chans s !! c = Some ch →
  clients s1 !! c = None ∧
  ∃ ch1, chans s1 !! c = Some ch1 ∧ buf ch = received c o ++ buf ch1 ∧
         cap ch1 = cap ch ∧ closed ch1 = closed ch.
Proof.
  intros Hinv Hstep Hc Hch.
  assert (c ≠ next_chan s) as Hfresh.
  { pose proof (proj2 Hinv c ch Hch) as Hlt. simpl in Hlt. lia. }
  destruct a as [env|c'|e| |c']; simpl in Hstep.
  - destruct (registerChan_closed s) eqn:Hr.
    + by rewrite Events_listen_cap_closed in Hstep.
    + rewrite Events_listen_cap_open in Hstep by done. simpl in Hstep.
      injection Hstep as <- <-. simpl.
      rewrite !lookup_insert_ne by done. split; [done|]. by exists ch.
  - destruct (unregisterChan_closed s) eqn:Hu.
    + by rewrite Events_stop_closed in Hstep.
    + rewrite Events_stop_open in Hstep by done. simpl in Hstep.
      injection Hstep as <- <-. simpl. split; [|by exists ch].
      apply lookup_delete_None. by right.
  - destruct (EventPush_closed s); [done|].
    destruct (clientSet_publish_post e s (proj1 Hinv)) as (s2 & Hpub & Hpost & _).
    rewrite Hpub in Hstep. simpl in Hstep. injection Hstep as <- <-.
    destruct (post_other _ _ _ _ Hpost c) as [-> ->].
    { rewrite visited_clientSet_keys, Hc. by intros [? ?]. }
    split; [done|]. by exists ch.
  - destruct (EventPush_closed s); [done|].
    set (s0 := System _ _ _ _ _ _) in Hstep.
    destruct (run_deferred_post s0 (proj1 Hinv))
      as (s2 & Hrun & _ & _ & Ho & Hcl & _).
    rewrite Hrun in Hstep. simpl in Hstep. injection Hstep as <- <-.
    rewrite Hcl, lookup_empty, (Ho c Hc). split; [done|]. by exists ch.
  - destruct (chan_recv c' s) as [r| |] eqn:Hrecv; [|done..].
    simpl in Hstep. injection Hstep as <- <-.
    destruct (chan_recv_frame c' s r c ch Hrecv Hch) as [-> Hch1]. by split.
Qed.

Lemma exec_unregistered t : ∀ s obs s' c ch,
  inv s → exec t s = Ok (obs, s') →
  clients s !! c = None → chans s !! c = Some ch →
  clients s' !! c = None ∧
  ∃ ch', chans s' !! c = Some ch' ∧ buf ch = received c obs ++ buf ch' ∧
         cap ch' = cap ch ∧ closed ch' = closed ch.
Proof.
  induction t as [|a t IH]; intros s obs s' c ch Hinv Hexec Hc Hch.
  - injection Hexec as <- <-. split; [done|]. by exists ch.
  - apply exec_cons in Hexec as (o1 & s1 & o2 & H1 & H2 & ->).
    destruct (step_unregistered a s o1 s1 c ch Hinv H1 Hc Hch)
      as (Hc1 & ch1 & Hch1 & Hbuf1 & Hcap1 & Hcl1).
    destruct (IH s1 o2 s' c ch1 (step_inv a s o1 s1 Hinv H1) H2 Hc1 Hch1)
      as (Hc' & ch' & Hch' & Hbuf' & Hcap' & Hcl').
    split; [done|]. exists ch'. split; [done|].
    rewrite received_app, Hbuf1, Hbuf', app_assoc. split; [done|].
    split; congruence.
Qed.

Lemma has_room_lt c s ch :
  chans s !! c = Some ch → has_room c s = true → length (buf ch) < cap ch.
Proof. unfold has_room. intros ->. apply Nat.ltb_lt. Qed.

Lemma deliver_room e ch :
  length (buf ch) < cap ch →
  deliver e ch = (Chan (buf ch ++ [e]) (cap ch) false, true).
Proof. intros H. unfold deliver. by apply Nat.ltb_lt in H as ->. Qed.

Lemma deliver_full e ch :
  cap ch ≤ length (buf ch) →
  deliver e ch = (Chan (buf ch) (cap ch) true, false).
Proof. intros H. unfold deliver. by apply Nat.ltb_ge in H as ->. Qed.

(** While [c] stays registered and finds room at every publish, what its
    consumer received followed by what is still queued is what was queued
    at the start followed by the events published since. *)
Lemma exec_registered t : ∀ s obs s' c ch,
  inv s → exec t s = Ok (obs, s') →
  is_Some (clients s !! c) → chans s !! c = Some ch →
  room_at_every_push capacity config c t s = true →
  ∃ ch', chans s' !! c = Some ch' ∧ cap ch' = cap ch ∧
         received c obs ++ buf ch' = buf ch ++ published_while_registered c t.
Proof.
  induction t as [|a t IH]; intros s obs s' c ch Hinv Hexec Hc Hch Hroom.
  - injection Hexec as <- <-. exists ch. simpl. by rewrite app_nil_r.
  - apply exec_cons in Hexec as (o1 & s1 & o2 & H1 & H2 & ->).
    pose proof (step_inv a s o1 s1 Hinv H1) as Hinv1.
    simpl in Hroom. rewrite H1 in Hroom. simpl in Hroom.
    apply andb_true_iff in Hroom as [Hnow Hlater].
    assert (c ≠ next_chan s) as Hfresh.
    { pose proof (proj2 Hinv c ch Hch) as Hlt. simpl in Hlt. lia. }
    rewrite received_app.
    destruct a as [env|c'|e| |c']; simpl in H1.
    + destruct (registerChan_closed s) eqn:Hr.
      { by rewrite Events_listen_cap_closed in H1. }
      rewrite Events_listen_cap_open in H1 by done. simpl in H1.
      injection H1 as <- <-.
      apply (IH _ o2 s' c ch Hinv1 H2); simpl; [|by rewrite lookup_insert_ne|done].
      by rewrite lookup_insert_ne.
    + destruct (unregisterChan_closed s) eqn:Hu.
      { by rewrite Events_stop_closed in H1. }
      rewrite Events_stop_open in H1 by done. simpl in H1.
      injection H1 as <- <-. simpl. destruct (decide (c' = c)) as [->|Hne].
      * destruct (exec_unregistered t _ o2 s' c ch Hinv1 H2)
          as (_ & ch' & Hch' & Hbuf' & Hcap' & _); [by apply lookup_delete_eq|done|].
        exists ch'. by rewrite app_nil_r.
      * apply (IH _ o2 s' c ch Hinv1 H2); simpl; [|done..].
        by rewrite lookup_delete_ne.
    + destruct (EventPush_closed s); [done|].
      destruct (clientSet_publish_post e s (proj1 Hinv)) as (s2 & Hpub & Hpost & _).
      rewrite Hpub in H1. simpl in H1. injection H1 as <- <-.
      rewrite decide_True in Hnow by done.
      pose proof (has_room_lt c s ch Hch Hnow) as Hlt.
      destruct (post_visited _ _ _ _ Hpost c ch) as [Hch2 Hc2];
        [by apply visited_clientSet_keys|done|].
      rewrite (deliver_room e ch Hlt) in Hch2, Hc2. simpl in Hch2, Hc2.
      destruct (IH s2 o2 s' c (Chan (buf ch ++ [e]) (cap ch) false) Hinv1 H2)
        as (ch' & Hch' & Hcap' & Hbuf'); [by rewrite Hc2|done|done|].
      exists ch'. simpl in *. by rewrite Hbuf', <-app_assoc.
    + destruct (EventPush_closed s); [done|].
      set (s0 := System _ _ _ _ _ _) in H1.
      destruct (run_deferred_post s0 (proj1 Hinv))
        as (s2 & Hrun & _ & Hv & _ & Hcl & _).
      rewrite Hrun in H1. simpl in H1. injection H1 as <- <-.
      pose proof (Hv c ch Hc Hch) as Hch2.
      destruct (exec_unregistered t s2 o2 s' c (shut ch).1 Hinv1 H2)
        as (_ & ch' & Hch' & Hbuf' & Hcap' & _); [by rewrite Hcl|done|].
      exists ch'. simpl in *. by rewrite app_nil_r.
    + destruct (chan_recv c' s) as [r| |] eqn:Hrecv; [|done..].
      simpl in H1. injection H1 as <- <-.
      destruct (chan_recv_frame c' s r c ch Hrecv Hch)
        as (Hcl & ch1 & Hch1 & Hbuf1 & Hcap1 & _).
      destruct (IH r.2 o2 s' c ch1 Hinv1 H2) as (ch' & Hch' & Hcap' & Hbuf');
        [by rewrite Hcl|done|done|].
      exists ch'. split; [done|]. split; [congruence|].
      rewrite Hbuf1, <-!app_assoc. f_equal. exact Hbuf'.
Qed.

(** Without any assumption on capacity: what reaches the queue of a
    registered [c] is a prefix of the events published while it is
    registered. *)
Lemma exec_registered_prefix t : ∀ s obs s' c ch,
  inv s → exec t s = Ok (obs, s') →
  is_Some (clients s !! c) → chans s !! c = Some ch →
  ∃ ch' l, chans s' !! c = Some ch' ∧
           received c obs ++ buf ch' = buf ch ++ l ∧
           l `prefix_of` published_while_registered c t.
Proof.
  induction t as [|a t IH]; intros s obs s' c ch Hinv Hexec Hc Hch.
  - injection Hexec as <- <-. exists ch, []. simpl. by rewrite app_nil_r.
  - apply exec_cons in Hexec as (o1 & s1 & o2 & H1 & H2 & ->).
    pose proof (step_inv a s o1 s1 Hinv H1) as Hinv1.
    assert (c ≠ next_chan s) as Hfresh.
    { pose proof (proj2 Hinv c ch Hch) as Hlt. simpl in Hlt. lia. }
    rewrite received_app.
    destruct a as [env|c'|e| |c']; simpl in H1.
    + destruct (registerChan_closed s) eqn:Hr.
      { by rewrite Events_listen_cap_closed in H1. }
      rewrite Events_listen_cap_open in H1 by done. simpl in H1.
      injection H1 as <- <-.
      apply (IH _ o2 s' c ch Hinv1 H2); simpl; by rewrite lookup_insert_ne.
    + destruct (unregisterChan_closed s) eqn:Hu.
      { by rewrite Events_stop_closed in H1. }
      rewrite Events_stop_open in H1 by done. simpl in H1.
      injection H1 as <- <-. simpl. destruct (decide (c' = c)) as [->|Hne].
      * destruct (exec_unregistered t _ o2 s' c ch Hinv1 H2)
          as (_ & ch' & Hch' & Hbuf' & _); [by apply lookup_delete_eq|done|].
        exists ch', []. by rewrite app_nil_r.
      * apply (IH _ o2 s' c ch Hinv1 H2); simpl; [|done].
        by rewrite lookup_delete_ne.
    + destruct (EventPush_closed s); [done|].
      destruct (clientSet_publish_post e s (proj1 Hinv)) as (s2 & Hpub & Hpost & _).
      rewrite Hpub in H1. simpl in H1. injection H1 as <- <-.
      destruct (post_visited _ _ _ _ Hpost c ch) as [Hch2 Hc2];
        [by apply visited_clientSet_keys|done|].
      destruct (decide (length (buf ch) < cap ch)) as [Hlt|Hge].
      * rewrite (deliver_room e ch Hlt) in Hch2, Hc2. simpl in Hch2, Hc2.
        destruct (IH s2 o2 s' c (Chan (buf ch ++ [e]) (cap ch) false) Hinv1 H2)
          as (ch' & l & Hch' & Hbuf' & Hl); [by rewrite Hc2|done|].
        exists ch', (e :: l). split; [done|]. simpl in *.
        split; [by rewrite Hbuf', <-app_assoc|by apply prefix_cons].
      * rewrite (deliver_full e ch) in Hch2, Hc2 by lia. simpl in Hch2, Hc2.
        destruct (exec_unregistered t s2 o2 s' c (Chan (buf ch) (cap ch) true) Hinv1 H2)
          as (_ & ch' & Hch' & Hbuf' & _); [done..|].
        exists ch', []. simpl in *. rewrite app_nil_r.
        split; [done|]. split; [done|apply prefix_nil].
    + destruct (EventPush_closed s); [done|].
      set (s0 := System _ _ _ _ _ _) in H1.
      destruct (run_deferred_post s0 (proj1 Hinv))
        as (s2 & Hrun & _ & Hv & _ & Hcl & _).
      rewrite Hrun in H1. simpl in H1. injection H1 as <- <-.
      pose proof (Hv c ch Hc Hch) as Hch2.
      destruct (exec_unregistered t s2 o2 s' c (shut ch).1 Hinv1 H2)
        as (_ & ch' & Hch' & Hbuf' & _); [by rewrite Hcl|done|].
      exists ch', []. simpl in *. by rewrite app_nil_r.
    + destruct (chan_recv c' s) as [r| |] eqn:Hrecv; [|done..].
      simpl in H1. injection H1 as <- <-.
      destruct (chan_recv_frame c' s r c ch Hrecv Hch)
        as (Hcl & ch1 & Hch1 & Hbuf1 & _).
      destruct (IH r.2 o2 s' c ch1 Hinv1 H2) as (ch' & l & Hch' & Hbuf' & Hl);
        [by rewrite Hcl|done|].
      exists ch', l. split; [done|]. split; [|done].
      rewrite Hbuf1, <-!app_assoc. f_equal. exact Hbuf'.
Qed.

End Steps.

(** ** The adapter's output *)

Section AdapterFacts.

Context {Payload Conn : Type}.
Variable JSON_Send : Conn → @iface Payload → option Conn.



End AdapterFacts.

(** ** Delivery *)

(** C1: when the loop handles a published event it makes one non-blocking
    send to every registered queue, whatever the order of the visit: a
    queue with free capacity gets the event appended and stays registered;
    a full queue is closed and removed, alone; queues outside the registry
    are untouched; the handling never panics or blocks, and the loop goes
    on. *)
Theorem publish_delivers_or_drops {Payload : Type}
    (e : @Event Payload) (s : @system Payload) :
  registry_open s →
  ∃ s', run_select (m_event e) s = Ok (false, s') ∧
    (∀ keys, keys ≡ₚ clientSet_keys s →
       clientSet_publish_in keys e s = Ok s') ∧
    (∀ c ch, is_Some (clients s !! c) → chans s !! c = Some ch →
       (length (buf ch) < cap ch →
          chans s' !! c = Some (Chan (buf ch ++ [e]) (cap ch) false) ∧
          clients s' !! c = clients s !! c) ∧
       (cap ch ≤ length (buf ch) →
          chans s' !! c = Some (Chan (buf ch) (cap ch) true) ∧
          clients s' !! c = None)) ∧
    (∀ c, is_Some (clients s !! c) → is_Some (chans s !! c)) ∧
    (∀ c, clients s !! c = None →
       chans s' !! c = chans s !! c ∧ clients s' !! c = None) ∧
    EventPush_closed s' = EventPush_closed s ∧
    registerChan_closed s' = registerChan_closed s ∧
    unregisterChan_closed s' = unregisterChan_closed s ∧
    next_chan s' = next_chan s.
Proof.
  intros Hs.
  destruct (clientSet_publish_in_post (clientSet_keys s) e s)
    as (s' & Hrun & Hpost & _); [apply clientSet_keys_NoDup|done|].
  exists s'. split; [simpl; by unfold clientSet_publish; rewrite Hrun|].
  split.
  { intros keys Hp. by rewrite clientSet_publish_order. }
  destruct Hpost as [Hv Ho ? ? ? ?].
  split; [|split; [|split; [|done]]].
  - intros c ch Hc Hch.
    destruct (Hv c ch) as [Hch' Hc']; [by apply visited_clientSet_keys|done|].
    split; intros Hlen.
    + by rewrite (deliver_room e ch Hlen) in Hch', Hc'.
    + by rewrite (deliver_full e ch Hlen) in Hch', Hc'.
  - intros c Hc.
    destruct (proj1 (open_lookup s c) (registry_open_lookup s c Hs Hc))
      as (ch & Hch & _). by exists ch.
  - intros c Hc. destruct (Ho c) as [-> ->]; [|done].
    rewrite visited_clientSet_keys, Hc. by intros [? ?].
Qed.

Lemma publish_delivers_or_drops_witness :
  registry_open two_queues ∧
  ∃ s', run_select (m_event (dyn 9)) two_queues = Ok (false, s') ∧
        chans s' !! 0 = Some (Chan [dyn 9] 1 false) ∧
        clients s' !! 0 = Some true ∧
        chans s' !! 1 = Some (Chan [dyn 7] 1 true) ∧
        clients s' !! 1 = None.
Proof.
  assert (registry_open two_queues) as Hs.
  { apply (bool_decide_unpack _). vm_compute. reflexivity. }
  split; [exact Hs|].
  destruct (publish_delivers_or_drops (dyn 9) two_queues Hs)
    as (s' & Hrun & _ & Hreg & _).
  exists s'. split; [exact Hrun|].
  destruct (Hreg 0 (Chan [] 1 false)) as [H0 _]; [by eexists|done|].
  destruct (Hreg 1 (Chan [dyn 7] 1 false)) as [_ H1]; [by eexists|done|].
  destruct H0 as [H0 H0']; [simpl; lia|].
  destruct H1 as [H1 H1']; [simpl; lia|].
  repeat split; assumption.
Defined.

(** C2: a subscriber returned by [listen] whose queue has free capacity at
    every publish while it is registered (so it is never dropped) gets
    exactly the events published during its registration, up to its [stop]
    or the shutdown, in publish order: what its consumer received, followed
    by what is still queued, is that sequence, with nothing lost, reordered
    or repeated; once the queue is drained the received sequence is the
    published one. *)
Theorem observed_equals_published {Payload Env : Type} (capacity : nat)
    (config : @EventConfig Payload Env) (env : Env) (s s1 s2 : @system Payload)
    (st : @State Payload) (c : chan_id) (t : list (@action Payload Env))
    (obs : list (@observation Payload)) :
  inv s →
  Events_listen_cap capacity config env s = Ok ((st, c), s1) →
  exec capacity config t s1 = Ok (obs, s2) →
  room_at_every_push capacity config c t s1 = true →
  ∃ ch, chans s2 !! c = Some ch ∧
        received c obs ++ buf ch = published_while_registered c t ∧
        (buf ch = [] → received c obs = published_while_registered c t).
Proof.
  intros Hinv Hlisten Hexec Hroom.
  destruct (registerChan_closed s) eqn:Hr.
  { by rewrite Events_listen_cap_closed in Hlisten. }
  rewrite Events_listen_cap_open in Hlisten by done.
  injection Hlisten as _ <- <-.
  destruct (exec_registered capacity config t _ obs s2 (next_chan s)
              (make_chan capacity) (listen_inv capacity s Hinv) Hexec)
    as (ch & Hch & _ & Hbuf); simpl.
  - rewrite lookup_insert_eq. by eexists.
  - by rewrite lookup_insert_eq.
  - done.
  - exists ch. split; [done|]. split; [done|].
    intros Hnil. by rewrite Hnil, app_nil_r in Hbuf.
Qed.

Lemma observed_equals_published_witness :
  ∃ ch, chans (System {[0 := Chan [] 2 true; 1 := Chan [dyn 6] 2 false]} ∅
                      false false false 2) !! 1 = Some ch ∧
        received 1 [(1, Some (dyn 5))] ++ buf ch = [dyn 5; dyn 6] ∧
        (buf ch = [] → received 1 [(1, Some (dyn 5))] = [dyn 5; dyn 6]).
Proof.
  apply (observed_equals_published 2 demo_config 3
           (System {[0 := Chan [] 2 true]} ∅ false false false 1)
           (System {[0 := Chan [] 2 true; 1 := Chan [] 2 false]} {[1 := true]}
                   false false false 2)
           (System {[0 := Chan [] 2 true; 1 := Chan [dyn 6] 2 false]} ∅
                   false false false 2)
           (dyn 3) 1
           [a_push (dyn 5); a_recv 1; a_push (dyn 6); a_stop 1; a_push (dyn 7)]
           [(1, Some (dyn 5))]).
  - apply (bool_decide_unpack _). vm_compute. reflexivity.
  - vm_compute. reflexivity.
  - vm_compute. reflexivity.
  - vm_compute. reflexivity.
Defined.

(** ** The invariant of the loop *)

(** C10: in every state the broadcaster reaches, every queue in the
    registry exists and is open; so no iteration of the loop panics
    (no send on a closed queue, no second close), whatever message it
    receives, and [run] gets through any sequence of unregister, event and
    source-closed messages; and a step closes a queue only if it removes it
    from the registry in that same step. *)
Theorem registry_members_open {Payload Env : Type} (capacity : nat)
    (config : @EventConfig Payload Env) (t : list (@action Payload Env))
    (obs : list (@observation Payload)) (s : @system Payload) :
  exec capacity config t MakeEvents = Ok (obs, s) →
  registry_open s ∧
  (∀ m, ∃ r, run_select m s = Ok r) ∧
  (∀ inbox, Forall (λ m, ∀ c, m ≠ m_register c) inbox →
     ∃ s', Events_run inbox s = Ok s') ∧
  (∀ a o s1 c ch ch1,
     step capacity config a s = Ok (o, s1) →
     chans s !! c = Some ch → closed ch = false →
     chans s1 !! c = Some ch1 → closed ch1 = true →
     is_Some (clients s !! c) ∧ clients s1 !! c = None).
Proof.
  intros Hexec.
  pose proof (exec_inv capacity config t _ obs s MakeEvents_inv Hexec) as Hinv.
  split; [exact (proj1 Hinv)|]. split.
  - intros [c|c|e|]; simpl; [by eexists|by eexists| |].
    + destruct (clientSet_publish_post e s (proj1 Hinv)) as (s' & -> & _).
      by eexists.
    + destruct (run_deferred_post s (proj1 Hinv)) as (s' & -> & _).
      by eexists.
  - split.
    { intros inbox Hin.
      destruct (Events_run_total inbox s (proj1 Hinv) Hin) as (s' & Hrun & _).
      by exists s'. }
    intros a o s1 c ch ch1 Hstep Hch Hopen Hch1 Hclosed.
    pose proof (step_inv capacity config a s o s1 Hinv Hstep) as Hinv1.
    split.
    + destruct (clients s !! c) as [b|] eqn:Hb; [by eexists|].
      destruct (step_unregistered capacity config a s o s1 c ch Hinv Hstep Hb Hch)
        as (_ & ch' & Hch' & _ & _ & Hcl').
      congruence.
    + destruct (clients s1 !! c) as [b|] eqn:Hb; [|done].
      pose proof (registry_open_lookup s1 c (proj1 Hinv1) (mk_is_Some _ _ Hb)) as Ho.
      rewrite Hch1 in Ho. simpl in Ho. congruence.
Qed.

Lemma registry_members_open_witness :
  registry_open two_queues ∧
  (∀ m, ∃ r, run_select m two_queues = Ok r).
Proof.
  destruct (registry_members_open 1 demo_config
              [a_listen 0; a_listen 0; a_push (dyn 7); a_recv 0]
              [(0, Some (dyn 7))] two_queues) as (H1 & H2 & _).
  - vm_compute. reflexivity.
  - split; assumption.
Defined.

(** ** Shutdown *)

(** C3 (as the code has it): when the event source closes, the loop closes
    every registered queue and empties the registry, leaving queued values
    in place, so a reader waiting on an empty queue sees it closed; the
    loop then has closed [registerChan] and [unregisterChan], and every
    later [listen] or [stop] panics with a send on a closed channel instead
    of returning. *)
Theorem source_close_drops_all_then_calls_panic {Payload Env : Type}
    (capacity : nat) (config : @EventConfig Payload Env) (s : @system Payload) :
  inv s → EventPush_closed s = false →
  ∃ s', step capacity config a_close_source s = Ok ([], s') ∧
    clients s' = ∅ ∧
    (∀ c ch, is_Some (clients s !! c) → chans s !! c = Some ch →
       chans s' !! c = Some (Chan (buf ch) (cap ch) true) ∧
       (buf ch = [] → chan_recv c s = Blocked ∧ chan_recv c s' = Ok (None, s'))) ∧
    (∀ inbox, Events_run (m_closed :: inbox)
                (System (chans s) (clients s) true (registerChan_closed s)
                        (unregisterChan_closed s) (next_chan s)) = Ok s') ∧
    (∀ n env, Events_listen_cap n config env s' = Panic send_on_closed_channel) ∧
    (∀ c, Events_stop c s' = Panic send_on_closed_channel).
Proof.
  intros Hinv Hpush. simpl. rewrite Hpush.
  set (s0 := System _ _ _ _ _ _).
  destruct (run_deferred_post s0 (proj1 Hinv))
    as (s' & Hrun & _ & Hv & _ & Hcl & _ & Hr & Hu & _).
  rewrite Hrun.
  exists s'. split; [done|]. split; [done|]. split; [|split; [|split]].
  - intros c ch Hc Hch. pose proof (Hv c ch Hc Hch) as Hch'.
    split; [done|]. intros Hnil.
    pose proof (registry_open_lookup s c (proj1 Hinv) Hc) as Ho.
    rewrite Hch in Ho. injection Ho as Ho.
    unfold chan_recv. rewrite Hch, Hch'. simpl. by rewrite Hnil, Ho.
  - done.
  - intros n env. by apply Events_listen_cap_closed.
  - intros c. by apply Events_stop_closed.
Qed.

Lemma source_close_drops_all_then_calls_panic_witness :
  ∃ s', step 1 demo_config a_close_source two_queues = Ok ([], s') ∧
        clients s' = ∅ ∧
        chans s' !! 1 = Some (Chan [dyn 7] 1 true) ∧
        chan_recv 0 s' = Ok (None, s') ∧
        Events_stop 1 s' = Panic send_on_closed_channel.
Proof.
  destruct (source_close_drops_all_then_calls_panic 1 demo_config two_queues)
    as (s' & Hstep & Hcl & Hreg & _ & _ & Hstop).
  - apply (bool_decide_unpack _). vm_compute. reflexivity.
  - reflexivity.
  - exists s'. split; [exact Hstep|]. split; [exact Hcl|].
    destruct (Hreg 1 (Chan [dyn 7] 1 false)) as [H1 _]; [by eexists|done|].
    destruct (Hreg 0 (Chan [] 1 false)) as [_ H0]; [by eexists|done|].
    destruct H0 as [_ H0]; [done|].
    split; [exact H1|]. split; [exact H0|]. apply Hstop.
Defined.

(** C3 as stated fails: after the loop has exited, [stop] and [listen] do
    not return an error to their caller, they panic. *)
Lemma stop_after_exit_is_a_fault :
  exec EVENTS_BUFFER demo_config [a_listen 0; a_close_source] MakeEvents
    = Ok ([], after_exit) ∧
  Events_stop 0 after_exit = Panic send_on_closed_channel ∧
  Events_listen demo_config 0 after_exit = Panic send_on_closed_channel ∧
  ¬ (∃ s', Events_stop 0 after_exit = Ok s') ∧
  ¬ (∃ r, Events_listen demo_config 0 after_exit = Ok r).
Proof.
  split; [vm_compute; reflexivity|].
  split; [reflexivity|]. split; [reflexivity|].
  split; intros [? H]; discriminate H.
Qed.

(** ** Unregistration *)

(** C4: handling an unregister message never fails and changes nothing but
    the registry; handling it a second time changes nothing at all; for a
    queue that is not in the registry, in particular one the loop has
    dropped, the first handling already changes nothing. *)
Theorem unregister_idempotent {Payload : Type} (s : @system Payload) (c : chan_id) :
  (∃ s1, run_select (m_unregister c) s = Ok (false, s1) ∧
         run_select (m_unregister c) s1 = Ok (false, s1) ∧
         chans s1 = chans s ∧
         EventPush_closed s1 = EventPush_closed s ∧
         registerChan_closed s1 = registerChan_closed s ∧
         unregisterChan_closed s1 = unregisterChan_closed s ∧
         next_chan s1 = next_chan s) ∧
  (clients s !! c = None → run_select (m_unregister c) s = Ok (false, s)) ∧
  (clients s !! c = None → unregisterChan_closed s = false →
   Events_stop c s = Ok s) ∧
  (∀ s0, clientSet_drop c s0 = Ok s →
         run_select (m_unregister c) s = Ok (false, s)).
Proof.
  assert (∀ s' : @system Payload, clients s' !! c = None →
            run_select (m_unregister c) s' = Ok (false, s')) as Habsent.
  { intros s' H. simpl. do 2 f_equal. apply system_eq; try done.
    simpl. by apply delete_id. }
  split; [|split; [|split]].
  - exists (clientSet_unregister c s). split; [done|].
    split; [|done]. apply Habsent. simpl. apply lookup_delete_eq.
  - apply Habsent.
  - intros Hc Hu. unfold Events_stop, unregisterChan_send.
    by rewrite Hu, (Habsent s Hc).
  - intros s0 Hdrop. apply Habsent.
    unfold clientSet_drop in Hdrop.
    destruct (chan_close c s0) as [s1| |]; [|done..].
    simpl in Hdrop. injection Hdrop as <-. simpl. apply lookup_delete_eq.
Qed.

Lemma unregister_idempotent_witness :
  clients one_dropped !! 0 = None ∧
  run_select (m_unregister 0) one_dropped = Ok (false, one_dropped) ∧
  Events_stop 0 one_dropped = Ok one_dropped.
Proof.
  destruct (unregister_idempotent one_dropped 0) as (_ & H1 & H2 & _).
  split; [reflexivity|]. split; [apply H1|apply H2]; reflexivity.
Defined.

(** ** Subscription *)

(** C5: [listen] makes a new channel, not in the store before, empty, open
    and of capacity [EVENTS_BUFFER] = 100; when it returns the loop has put
    that channel in the registry; it returns the channel together with the
    snapshot [state()]: the provider's value for the current environment,
    or [struct{}{}] without a provider.  Nothing else changes. *)
Theorem listen_allocates_registers_snapshots {Payload Env : Type}
    (config : @EventConfig Payload Env) (env : Env) (s : @system Payload) :
  allocated_below s → registerChan_closed s = false →
  ∃ s', Events_listen config env s = Ok ((Events_state config env, next_chan s), s') ∧
    chans s !! next_chan s = None ∧
    chans s' = <[next_chan s := Chan [] 100 false]> (chans s) ∧
    clients s' = <[next_chan s := true]> (clients s) ∧
    Events_state config env =
      match StateFunc config with
      | Some f => f env
      | None => empty_struct
      end ∧
    EventPush_closed s' = EventPush_closed s ∧
    registerChan_closed s' = registerChan_closed s ∧
    unregisterChan_closed s' = unregisterChan_closed s.
Proof.
  intros Ha Hr. unfold Events_listen.
  rewrite Events_listen_cap_open by done.
  eexists. split; [done|]. simpl. repeat split.
  destruct (chans s !! next_chan s) as [ch|] eqn:Hch; [|done].
  pose proof (Ha _ ch Hch) as Hlt. simpl in Hlt. lia.
Qed.

Lemma listen_allocates_registers_snapshots_witness :
  (∃ s', Events_listen demo_config 4 two_queues = Ok ((dyn 4, 2), s') ∧
         chans s' !! 2 = Some (Chan [] 100 false) ∧
         clients s' !! 2 = Some true) ∧
  (∃ s', Events_listen no_provider 4 two_queues = Ok ((empty_struct, 2), s')).
Proof.
  assert (allocated_below two_queues) as Ha.
  { apply (bool_decide_unpack _). vm_compute. reflexivity. }
  destruct (listen_allocates_registers_snapshots demo_config 4 two_queues Ha)
    as (s' & Hl & _ & Hch & Hcl & _); [reflexivity|].
  destruct (listen_allocates_registers_snapshots no_provider 4 two_queues Ha)
    as (s'' & Hl' & _); [reflexivity|].
  split; [|by exists s''].
  exists s'. split; [exact Hl|].
  rewrite Hch, Hcl. split; apply lookup_insert_eq.
Defined.

(** C7: once a queue is closed, which only the loop's drop does, it is
    outside the registry and stays outside; whatever happens next, nothing
    is added to it: what was queued when it was closed is what its consumer
    takes out afterwards followed by what is still queued; it stays closed;
    and an unregister for it changes nothing. *)
Theorem closed_queue_stays_silent {Payload Env : Type} (capacity : nat)
    (config : @EventConfig Payload Env) (s s' : @system Payload) (c : chan_id)
    (ch : @chan Payload) (t : list (@action Payload Env))
    (obs : list (@observation Payload)) :
  inv s → chans s !! c = Some ch → closed ch = true →
  exec capacity config t s = Ok (obs, s') →
  clients s !! c = None ∧ clients s' !! c = None ∧
  (∃ ch', chans s' !! c = Some ch' ∧ closed ch' = true ∧
          buf ch = received c obs ++ buf ch') ∧
  run_select (m_unregister c) s' = Ok (false, s').
Proof.
  intros Hinv Hch Hclosed Hexec.
  assert (clients s !! c = None) as Hc.
  { destruct (clients s !! c) as [b|] eqn:Hb; [|done].
    pose proof (registry_open_lookup s c (proj1 Hinv) (mk_is_Some _ _ Hb)) as Ho.
    rewrite Hch in Ho. simpl in Ho. congruence. }
  destruct (exec_unregistered capacity config t s obs s' c ch Hinv Hexec Hc Hch)
    as (Hc' & ch' & Hch' & Hbuf' & _ & Hcl').
  split; [done|]. split; [done|]. split.
  - exists ch'. split; [done|]. split; [congruence|done].
  - simpl. do 2 f_equal. apply system_eq; try done. simpl. by apply delete_id.
Qed.

Lemma closed_queue_stays_silent_witness :
  clients one_dropped !! 0 = None ∧
  (∃ ch', chans (System {[0 := Chan [] 1 true; 1 := Chan [dyn 8] 1 false]}
                        {[1 := true]} false false false 2) !! 0 = Some ch' ∧
          closed ch' = true ∧
          [dyn 7] = received 0 [(0, Some (dyn 7)); (0, None)] ++ buf ch').
Proof.
  destruct (closed_queue_stays_silent 1 demo_config one_dropped
              (System {[0 := Chan [] 1 true; 1 := Chan [dyn 8] 1 false]}
                      {[1 := true]} false false false 2)
              0 (Chan [dyn 7] 1 true)
              [a_listen 0; a_recv 0; a_push (dyn 8); a_stop 0; a_recv 0]
              [(0, Some (dyn 7)); (0, None)]) as (H1 & _ & H3 & _).
  - apply (bool_decide_unpack _). vm_compute. reflexivity.
  - reflexivity.
  - reflexivity.
  - vm_compute. reflexivity.
  - split; [exact H1|exact H3].
Defined.



(** ** The capacity-two scenario *)


(** ** The snapshot *)

(** C6 (as the code has it): in the loop that takes a state provider,
    handling an event changes the queues and the registry and nothing else,
    and the snapshot [listen] returns is [state()] for the environment of
    the call, whatever the broadcaster has been through.  The loop of
    src/events.go differs: handling an event stores it in [state], and
    registering a queue sends the stored value on that queue first. *)
Theorem snapshot_from_provider_or_cached {Payload Env : Type}
    (config : @EventConfig Payload Env) (e : @Event Payload) (s : @system Payload) :
  registry_open s →
  (∃ s', run_select (m_event e) s = Ok (false, s') ∧
         EventPush_closed s' = EventPush_closed s ∧
         registerChan_closed s' = registerChan_closed s ∧
         unregisterChan_closed s' = unregisterChan_closed s ∧
         next_chan s' = next_chan s) ∧
  (∀ n env s0 r,
     Events_listen_cap n config env s0 = Ok r → r.1.1 = Events_state config env) ∧
  (∀ st, ∃ s', events_go.run_select (m_event e) (events_go.Loop s st)
                 = Ok (false, events_go.Loop s' e)) ∧
  (∀ n st, 0 < n → registerChan_closed s = false →
     ∃ l', events_go.Events_listen_cap n (events_go.Loop s st)
             = Ok (next_chan s, l') ∧
           events_go.state l' = st ∧
           chans (events_go.sys l') !! next_chan s = Some (Chan [st] n false) ∧
           clients (events_go.sys l') !! next_chan s = Some true).
Proof.
  intros Hs.
  destruct (clientSet_publish_post e s Hs) as (s' & Hpub & Hpost & _).
  split; [|split; [|split]].
  - exists s'. simpl. rewrite Hpub. by destruct Hpost.
  - intros n env s0 r. unfold Events_listen_cap, new_chan.
    destruct (registerChan_send _ _) as [s2| |]; [|done..].
    simpl. by intros [= <-].
  - intros st. exists s'. simpl. by rewrite Hpub.
  - intros n st Hn Hr. unfold events_go.Events_listen_cap, new_chan. simpl.
    rewrite Hr. simpl.
    rewrite clientSet_send_open by (simpl; by rewrite lookup_insert_eq).
    eexists. split; [done|]. simpl. split; [done|].
    unfold on_chan. simpl. rewrite lookup_insert_eq. simpl.
    unfold deliver. simpl.
    destruct n as [|n]; [lia|]. simpl.
    by rewrite !lookup_insert_eq.
Qed.

Lemma snapshot_from_provider_or_cached_witness :
  (∃ s', run_select (m_event (dyn 9)) two_queues = Ok (false, s') ∧
         next_chan s' = 2) ∧
  (∃ s', events_go.run_select (m_event (dyn 9))
           (events_go.Loop two_queues empty_struct)
           = Ok (false, events_go.Loop s' (dyn 9))).
Proof.
  destruct (snapshot_from_provider_or_cached demo_config (dyn 9) two_queues)
    as ((s' & Hrun & _ & _ & _ & Hn) & _ & Hgo & _).
  - apply (bool_decide_unpack _). vm_compute. reflexivity.
  - split; [by exists s'|apply Hgo].
Defined.

(** C6 as stated fails on src/events.go: handling the event [dyn 5] changes
    the loop's [state] from [struct{}{}] to [dyn 5], and the subscriber
    that registers next finds [dyn 5], the stored event, at the head of its
    queue. *)
Lemma events_go_keeps_last_event :
  events_go.state (@events_go.MakeEvents nat) = empty_struct ∧
  events_go.run_select (m_event (dyn 5)) events_go.MakeEvents
    = Ok (false, events_go.Loop (System ∅ ∅ false false false 0) (dyn 5)) ∧
  events_go.Events_run [m_event (dyn 4); m_event (dyn 5)] events_go.MakeEvents
    = Ok (events_go.Loop (System ∅ ∅ false false false 0) (dyn 5)) ∧
  events_go.Events_listen (events_go.Loop (System ∅ ∅ false false false 0) (dyn 5))
    = Ok (0, events_go.Loop
               (System {[0 := Chan [dyn 5] 100 false]} {[0 := true]}
                       false false false 1)
               (dyn 5)).
Proof. repeat split; vm_compute; reflexivity. Qed.

(** The same with the capacity of the source: a subscriber that never reads
    keeps its queue through [EVENTS_BUFFER] events and loses it at the
    next. *)
Example scenario_EVENTS_BUFFER :
  exec EVENTS_BUFFER demo_config
       (a_listen 0 :: replicate EVENTS_BUFFER (a_push (dyn 1))) MakeEvents
    = Ok ([], System {[0 := Chan (replicate 100 (dyn 1)) 100 false]}
                     {[0 := true]} false false false 1) ∧
  exec EVENTS_BUFFER demo_config
       (a_listen 0 :: replicate (S EVENTS_BUFFER) (a_push (dyn 1))) MakeEvents
    = Ok ([], System {[0 := Chan (replicate 100 (dyn 1)) 100 true]}
                     ∅ false false false 1).
Proof. split; vm_compute; reflexivity. Qed.

(** ** Further properties of the broadcaster *)

Section MoreSteps.

Context {Payload Env : Type}.
Variable capacity : nat.
Variable config : @EventConfig Payload Env.
Implicit Types (s : @system Payload) (c : chan_id) (ch : @chan Payload)
  (e : @Event Payload) (a : @action Payload Env) (t : list (@action Payload Env)).

Abbreviation step := (step capacity config).
Abbreviation exec := (exec capacity config).

Lemma received_other c c' (v : option (@Event Payload)) :
  c' ≠ c → received c [(c', v)] = [].
Proof. intros H. destruct v; simpl; [|done]. by rewrite decide_False. Qed.

(** A registered queue that is never read leaves the registry once more
    events were published than it had room for. *)
Lemma exec_slow_dropped t : ∀ s obs s' c ch,
  inv s → is_Some (clients s !! c) → chans s !! c = Some ch →
  exec t s = Ok (obs, s') → reads_from c t = false →
  cap ch - length (buf ch) < pushes t →
  clients s' !! c = None.
Proof.
  induction t as [|a t IH]; intros s obs s' c ch Hinv Hc Hch Hexec Hread Hlt.
  - simpl in Hlt. lia.
  - apply exec_cons in Hexec as (o1 & s1 & o2 & H1 & H2 & ->).
    pose proof (step_inv capacity config a s o1 s1 Hinv H1) as Hinv1.
    assert (c ≠ next_chan s) as Hfresh.
    { pose proof (proj2 Hinv c ch Hch) as Hb. simpl in Hb. lia. }
    destruct a as [env|c'|e| |c']; simpl in H1, Hread, Hlt.
    + destruct (registerChan_closed s) eqn:Hr.
      { by rewrite Events_listen_cap_closed in H1. }
      rewrite Events_listen_cap_open in H1 by done. simpl in H1.
      injection H1 as <- <-.
      apply (IH _ o2 s' c ch Hinv1); simpl; try done;
        by rewrite lookup_insert_ne.
    + destruct (unregisterChan_closed s) eqn:Hu.
      { by rewrite Events_stop_closed in H1. }
      rewrite Events_stop_open in H1 by done. simpl in H1.
      injection H1 as <- <-. destruct (decide (c' = c)) as [->|Hne].
      * by destruct (exec_unregistered capacity config t _ o2 s' c ch Hinv1 H2)
          as (? & _); [apply lookup_delete_eq|done|].
      * apply (IH _ o2 s' c ch Hinv1); simpl; try done.
        by rewrite lookup_delete_ne.
    + destruct (EventPush_closed s); [done|].
      destruct (clientSet_publish_post e s (proj1 Hinv)) as (s2 & Hpub & Hpost & _).
      rewrite Hpub in H1. simpl in H1. injection H1 as <- <-.
      destruct (post_visited _ _ _ _ Hpost c ch) as [Hch2 Hc2];
        [by apply visited_clientSet_keys|done|].
      destruct (decide (length (buf ch) < cap ch)) as [Hroom|Hfull].
      * rewrite (deliver_room e ch Hroom) in Hch2, Hc2. simpl in Hch2, Hc2.
        apply (IH s2 o2 s' c _ Hinv1 ltac:(by rewrite Hc2) Hch2 H2 Hread).
        simpl. rewrite length_app. simpl. lia.
      * rewrite (deliver_full e ch) in Hch2, Hc2 by lia. simpl in Hch2, Hc2.
        by destruct (exec_unregistered capacity config t s2 o2 s' c _ Hinv1 H2 Hc2 Hch2)
          as (? & _).
    + destruct (EventPush_closed s); [done|].
      set (s0 := System _ _ _ _ _ _) in H1.
      destruct (run_deferred_post s0 (proj1 Hinv))
        as (s2 & Hrun & _ & Hv & _ & Hcl & _).
      rewrite Hrun in H1. simpl in H1. injection H1 as <- <-.
      pose proof (Hv c ch Hc Hch) as Hch2.
      by destruct (exec_unregistered capacity config t s2 o2 s' c _ Hinv1 H2
                     ltac:(by rewrite Hcl) Hch2) as (? & _).
    + apply orb_false_iff in Hread as [Hne%bool_decide_eq_false Hread].
      destruct (chan_recv c' s) as [r| |] eqn:Hrecv; [|done..].
      simpl in H1. injection H1 as <- <-.
      destruct (chan_recv_frame c' s r c ch Hrecv Hch)
        as (Hcl & ch1 & Hch1 & Hbuf1 & Hcap1 & _).
      rewrite received_other in Hbuf1 by done. simpl in Hbuf1.
      apply (IH r.2 o2 s' c ch1 Hinv1 ltac:(by rewrite Hcl) Hch1 H2 Hread).
      rewrite Hcap1, <-Hbuf1. lia.
Qed.

(** A registered queue that leaves the registry without a [stop] was
    closed. *)
Lemma exec_left_closed t : ∀ s obs s' c ch,
  inv s → is_Some (clients s !! c) → chans s !! c = Some ch →
  exec t s = Ok (obs, s') → stops c t = false →
  clients s' !! c = None →
  ∃ ch', chans s' !! c = Some ch' ∧ closed ch' = true.
Proof.
  induction t as [|a t IH]; intros s obs s' c ch Hinv Hc Hch Hexec Hstop Hgone.
  - injection Hexec as _ <-. rewrite Hgone in Hc. by destruct Hc.
  - apply exec_cons in Hexec as (o1 & s1 & o2 & H1 & H2 & ->).
    pose proof (step_inv capacity config a s o1 s1 Hinv H1) as Hinv1.
    assert (c ≠ next_chan s) as Hfresh.
    { pose proof (proj2 Hinv c ch Hch) as Hb. simpl in Hb. lia. }
    destruct a as [env|c'|e| |c']; simpl in H1, Hstop.
    + destruct (registerChan_closed s) eqn:Hr.
      { by rewrite Events_listen_cap_closed in H1. }
      rewrite Events_listen_cap_open in H1 by done. simpl in H1.
      injection H1 as <- <-.
      apply (IH _ o2 s' c ch Hinv1); simpl; try done;
        by rewrite lookup_insert_ne.
    + apply orb_false_iff in Hstop as [Hne%bool_decide_eq_false Hstop].
      destruct (unregisterChan_closed s) eqn:Hu.
      { by rewrite Events_stop_closed in H1. }
      rewrite Events_stop_open in H1 by done. simpl in H1.
      injection H1 as <- <-.
      apply (IH _ o2 s' c ch Hinv1); simpl; try done.
      by rewrite lookup_delete_ne.
    + destruct (EventPush_closed s); [done|].
      destruct (clientSet_publish_post e s (proj1 Hinv)) as (s2 & Hpub & Hpost & _).
      rewrite Hpub in H1. simpl in H1. injection H1 as <- <-.
      destruct (post_visited _ _ _ _ Hpost c ch) as [Hch2 Hc2];
        [by apply visited_clientSet_keys|done|].
      destruct (decide (length (buf ch) < cap ch)) as [Hroom|Hfull].
      * rewrite (deliver_room e ch Hroom) in Hch2, Hc2. simpl in Hch2, Hc2.
        by apply (IH s2 o2 s' c _ Hinv1 ltac:(by rewrite Hc2) Hch2 H2).
      * rewrite (deliver_full e ch) in Hch2, Hc2 by lia. simpl in Hch2, Hc2.
        destruct (exec_unregistered capacity config t s2 o2 s' c _ Hinv1 H2 Hc2 Hch2)
          as (_ & ch' & Hch' & _ & _ & Hcl').
        by exists ch'.
    + destruct (EventPush_closed s); [done|].
      set (s0 := System _ _ _ _ _ _) in H1.
      destruct (run_deferred_post s0 (proj1 Hinv))
        as (s2 & Hrun & _ & Hv & _ & Hcl & _).
      rewrite Hrun in H1. simpl in H1. injection H1 as <- <-.
      pose proof (Hv c ch Hc Hch) as Hch2.
      destruct (exec_unregistered capacity config t s2 o2 s' c _ Hinv1 H2
                  ltac:(by rewrite Hcl) Hch2) as (_ & ch' & Hch' & _ & _ & Hcl').
      by exists ch'.
    + destruct (chan_recv c' s) as [r| |] eqn:Hrecv; [|done..].
      simpl in H1. injection H1 as <- <-.
      destruct (chan_recv_frame c' s r c ch Hrecv Hch)
        as (Hcl & ch1 & Hch1 & _).
      by apply (IH r.2 o2 s' c ch1 Hinv1 ltac:(by rewrite Hcl) Hch1 H2).
Qed.

(** Every step keeps the queues within their capacity. *)
Lemma step_bounded a s o s1 :
  inv s → queues_bounded capacity s → step a s = Ok (o, s1) →
  queues_bounded capacity s1.
Proof.
  intros Hinv Hb Hstep c ch1 Hch1.
  destruct a as [env|c'|e| |c']; simpl in Hstep.
  - destruct (registerChan_closed s) eqn:Hr.
    { by rewrite Events_listen_cap_closed in Hstep. }
    rewrite Events_listen_cap_open in Hstep by done. simpl in Hstep.
    injection Hstep as <- <-. simpl in Hch1.
    apply lookup_insert_Some in Hch1 as [[_ <-]|[_ Hch1]]; [simpl; lia|].
    exact (Hb c ch1 Hch1).
  - destruct (unregisterChan_closed s) eqn:Hu.
    { by rewrite Events_stop_closed in Hstep. }
    rewrite Events_stop_open in Hstep by done. simpl in Hstep.
    injection Hstep as <- <-. exact (Hb c ch1 Hch1).
  - destruct (EventPush_closed s); [done|].
    destruct (clientSet_publish_post e s (proj1 Hinv)) as (s2 & Hpub & Hpost & _).
    rewrite Hpub in Hstep. simpl in Hstep. injection Hstep as <- <-.
    destruct (decide (visited (clientSet_keys s) s c)) as [Hv|Hv].
    + destruct (proj1 (open_lookup s c)
                  (registry_open_lookup s c (proj1 Hinv) (proj2 Hv)))
        as (ch & Hch & _).
      destruct (post_visited _ _ _ _ Hpost c ch Hv Hch) as [Hch2 _].
      rewrite Hch1 in Hch2. injection Hch2 as ->.
      destruct (Hb c ch Hch) as [Hcap Hlen]. simpl in *.
      unfold deliver. destruct (length (buf ch) <? cap ch) eqn:Hroom; simpl.
      * apply Nat.ltb_lt in Hroom. rewrite length_app. simpl. lia.
      * done.
    + destruct (post_other _ _ _ _ Hpost c Hv) as [Hch2 _].
      rewrite Hch2 in Hch1. exact (Hb c ch1 Hch1).
  - destruct (EventPush_closed s); [done|].
    set (s0 := System _ _ _ _ _ _) in Hstep.
    destruct (run_deferred_post s0 (proj1 Hinv))
      as (s2 & Hrun & _ & Hv & Ho & _).
    rewrite Hrun in Hstep. simpl in Hstep. injection Hstep as <- <-.
    destruct (clients s0 !! c) as [b|] eqn:Hc.
    + destruct (proj1 (open_lookup s0 c)
                  (registry_open_lookup s0 c (proj1 Hinv) (mk_is_Some _ _ Hc)))
        as (ch & Hch & _).
      rewrite (Hv c ch (mk_is_Some _ _ Hc) Hch) in Hch1. injection Hch1 as <-.
      exact (Hb c ch Hch).
    + rewrite (Ho c Hc) in Hch1. exact (Hb c ch1 Hch1).
  - destruct (chan_recv c' s) as [r| |] eqn:Hrecv; [|done..].
    simpl in Hstep. injection Hstep as <- <-.
    unfold chan_recv in Hrecv.
    destruct (chans s !! c') as [ch0|] eqn:Hch0; [|done].
    destruct (buf ch0) as [|v rest] eqn:Hbuf.
    + destruct (closed ch0); [|done]. injection Hrecv as <-.
      exact (Hb c ch1 Hch1).
    + injection Hrecv as <-. simpl in Hch1.
      apply lookup_insert_Some in Hch1 as [[<- <-]|[_ Hch1]].
      * destruct (Hb c' ch0 Hch0) as [Hcap Hlen]. simpl.
        rewrite Hbuf in Hlen. simpl in Hlen. lia.
      * exact (Hb c ch1 Hch1).
Qed.

Lemma exec_bounded t : ∀ s obs s',
  inv s → queues_bounded capacity s → exec t s = Ok (obs, s') →
  queues_bounded capacity s'.
Proof.
  induction t as [|a t IH]; intros s obs s' Hinv Hb Hexec.
  - by injection Hexec as _ <-.
  - apply exec_cons in Hexec as (o1 & s1 & o2 & H1 & H2 & _).
    apply (IH s1 o2 s'); [by eapply step_inv|by eapply step_bounded|done].
Qed.

End MoreSteps.

(** X1: a registered subscriber that is never read from is gone from the
    registry as soon as more events have been published than its queue had
    room for; unless it asked to [stop], its queue has then been closed. *)
Theorem slow_subscriber_dropped {Payload Env : Type} (capacity : nat)
    (config : @EventConfig Payload Env) (s s' : @system Payload) (c : chan_id)
    (ch : @chan Payload) (t : list (@action Payload Env))
    (obs : list (@observation Payload)) :
  inv s → is_Some (clients s !! c) → chans s !! c = Some ch →
  exec capacity config t s = Ok (obs, s') →
  reads_from c t = false →
  cap ch - length (buf ch) < pushes t →
  clients s' !! c = None ∧
  (stops c t = false → ∃ ch', chans s' !! c = Some ch' ∧ closed ch' = true).
Proof.
  intros Hinv Hc Hch Hexec Hread Hlt.
  pose proof (exec_slow_dropped capacity config t s obs s' c ch
                Hinv Hc Hch Hexec Hread Hlt) as Hgone.
  split; [done|]. intros Hstop.
  by apply (exec_left_closed capacity config t s obs s' c ch).
Qed.

Lemma slow_subscriber_dropped_witness :
  clients two_queues_after_event !! 1 = None ∧
  ∃ ch', chans two_queues_after_event !! 1 = Some ch' ∧ closed ch' = true.
Proof.
  destruct (slow_subscriber_dropped 1 demo_config two_queues
              two_queues_after_event 1 (Chan [dyn 7] 1 false)
              [a_push (dyn 8)] []) as [H1 H2].
  - apply (bool_decide_unpack _). vm_compute. reflexivity.
  - by eexists.
  - reflexivity.
  - vm_compute. reflexivity.
  - reflexivity.
  - simpl. lia.
  - split; [exact H1|]. apply H2. reflexivity.
Defined.

(** X2: whatever the broadcaster goes through, every queue it created has
    the capacity [listen] gave it and never holds more events than that;
    with the capacity of the source, at most [EVENTS_BUFFER] = 100. *)
Theorem queues_stay_bounded {Payload Env : Type}
    (config : @EventConfig Payload Env) (t : list (@action Payload Env))
    (obs : list (@observation Payload)) (s : @system Payload) :
  exec EVENTS_BUFFER config t MakeEvents = Ok (obs, s) →
  ∀ c ch, chans s !! c = Some ch → cap ch = 100 ∧ length (buf ch) ≤ 100.
Proof.
  intros Hexec c ch Hch.
  assert (queues_bounded EVENTS_BUFFER (@MakeEvents Payload)) as H0.
  { intros c' ch'. unfold MakeEvents. simpl. by rewrite lookup_empty. }
  exact (exec_bounded EVENTS_BUFFER config t MakeEvents obs s
           MakeEvents_inv H0 Hexec c ch Hch).
Qed.

Lemma queues_stay_bounded_witness :
  cap (@Chan nat (replicate 100 (dyn 1)) 100 true) = 100 ∧
  length (buf (@Chan nat (replicate 100 (dyn 1)) 100 true)) ≤ 100.
Proof.
  assert (exec EVENTS_BUFFER demo_config
            (a_listen 0 :: replicate (S EVENTS_BUFFER) (a_push (dyn 1))) MakeEvents
          = Ok ([], System {[0 := Chan (replicate 100 (dyn 1)) 100 true]}
                           ∅ false false false 1)) as Hexec.
  { vm_compute. reflexivity. }
  apply (queues_stay_bounded demo_config _ _ _ Hexec 0). reflexivity.
Defined.

(** X3: [clientSet.close] never panics on a registry of open queues, leaves
    the registry empty, and gives the same result whatever order the map is
    ranged in. *)
Theorem close_any_order {Payload : Type} (s : @system Payload)
    (keys : list chan_id) :
  registry_open s → keys ≡ₚ clientSet_keys s →
  ∃ s', clientSet_close s = Ok s' ∧ clientSet_close_in keys s = Ok s' ∧
        clients s' = ∅ ∧
        (∀ c ch, is_Some (clients s !! c) → chans s !! c = Some ch →
                 chans s' !! c = Some (Chan (buf ch) (cap ch) true)) ∧
        (∀ c, clients s !! c = None → chans s' !! c = chans s !! c).
Proof.
  intros Hs Hp.
  destruct (clientSet_close_in_post (clientSet_keys s) s)
    as (s' & Hrun & [Hv Ho _ _ _ _] & _); [apply clientSet_keys_NoDup|done|].
  exists s'. split; [done|]. split.
  { rewrite clientSet_close_order by done. done. }
  split; [|split].
  - apply map_eq. intros c. rewrite lookup_empty.
    destruct (clients s !! c) as [b|] eqn:Hb.
    + assert (is_Some (clients s !! c)) as Hc by (by exists b).
      destruct (proj1 (open_lookup s c) (registry_open_lookup s c Hs Hc))
        as (ch & Hch & _).
      apply visited_clientSet_keys in Hc. by destruct (Hv c ch Hc Hch) as [_ ->].
    + destruct (Ho c) as [_ ->]; [|done].
      rewrite visited_clientSet_keys, Hb. by intros [? ?].
  - intros c ch Hc Hch. apply visited_clientSet_keys in Hc.
    by destruct (Hv c ch Hc Hch) as [-> _].
  - intros c Hc. destruct (Ho c) as [-> _]; [|done].
    rewrite visited_clientSet_keys, Hc. by intros [? ?].
Qed.

Lemma close_any_order_witness :
  ∃ s', clientSet_close two_queues = Ok s' ∧
        clientSet_close_in [0; 1] two_queues = Ok s' ∧
        clients s' = ∅.
Proof.
  destruct (close_any_order two_queues [0; 1]) as (s' & H1 & H2 & H3 & _).
  - apply (bool_decide_unpack _). vm_compute. reflexivity.
  - vm_compute. apply perm_swap.
  - by exists s'.
Defined.

(** X4: [stop] takes a queue out of the registry without closing it, and
    nothing closes it afterwards, not even the shutdown: later events never
    reach it, and once its consumer has taken what was queued, a receive on
    it blocks. *)
Theorem stopped_queue_stays_open {Payload Env : Type} (capacity : nat)
    (config : @EventConfig Payload Env) (s s1 s' : @system Payload)
    (c : chan_id) (ch : @chan Payload) (t : list (@action Payload Env))
    (obs : list (@observation Payload)) :
  inv s → chans s !! c = Some ch → closed ch = false →
  Events_stop c s = Ok s1 →
  exec capacity config t s1 = Ok (obs, s') →
  clients s' !! c = None ∧
  ∃ ch', chans s' !! c = Some ch' ∧ closed ch' = false ∧
         buf ch = received c obs ++ buf ch' ∧
         (buf ch' = [] → chan_recv c s' = Blocked).
Proof.
  intros Hinv Hch Hopen Hstop Hexec.
  destruct (unregisterChan_closed s) eqn:Hu.
  { by rewrite Events_stop_closed in Hstop. }
  rewrite Events_stop_open in Hstop by done. injection Hstop as <-.
  destruct (exec_unregistered capacity config t _ obs s' c ch
              (unregister_inv c s Hinv) Hexec)
    as (Hc' & ch' & Hch' & Hbuf' & _ & Hcl'); [apply lookup_delete_eq|done|].
  split; [done|]. exists ch'. split; [done|]. split; [congruence|].
  split; [done|]. intros Hnil. unfold chan_recv.
  rewrite Hch', Hnil. by rewrite Hcl', Hopen.
Qed.

Lemma stopped_queue_stays_open_witness :
  ∃ ch', chans after_stop_and_close !! 0 = Some ch' ∧
         closed ch' = false ∧
         (buf ch' = [] → chan_recv 0 after_stop_and_close = Blocked).
Proof.
  destruct (stopped_queue_stays_open 1 demo_config two_empty_queues after_stop
              after_stop_and_close 0 (Chan [] 1 false) [a_close_source] [])
    as (_ & ch' & H1 & H2 & _ & H3).
  - apply (bool_decide_unpack _). vm_compute. reflexivity.
  - reflexivity.
  - reflexivity.
  - vm_compute. reflexivity.
  - vm_compute. reflexivity.
  - by exists ch'.
Defined.

(** ** The goroutine of ServeWebsocket *)

Section HandlerFacts.

Context {Payload Env Conn : Type}.
Variable capacity : nat.
Variable config : @EventConfig Payload Env.
Variable JSON_Send : Conn → @iface Payload → option Conn.
Implicit Types (s : @system Payload) (c : chan_id) (ch : @chan Payload)
  (h : @handler Conn).

Lemma step_allocated a s o s1 c :
  inv s → step capacity config a s = Ok (o, s1) →
  is_Some (chans s !! c) → is_Some (chans s1 !! c).
Proof.
  intros Hinv Hstep [ch Hch].
  destruct (clients s !! c) as [b|] eqn:Hc.
  - destruct (exec_registered_prefix capacity config [a] s (o ++ []) s1 c ch)
      as (ch' & _ & Hch' & _); [done| |by eexists|done|by eexists].
    simpl. by rewrite Hstep.
  - destruct (step_unregistered capacity config a s o s1 c ch Hinv Hstep Hc Hch)
      as (_ & ch' & Hch' & _). by eexists.
Qed.

Lemma handler_step_inv env h s h' sent s' :
  inv s → handler_inv h s →
  handler_step capacity config JSON_Send env h s = Ok (h', sent, s') →
  inv s' ∧ handler_inv h' s'.
Proof.
  intros Hinv Hh Hstep. destruct h as [ws|ws c|c|c err]; simpl in Hstep.
  - destruct (registerChan_closed s) eqn:Hr.
    { by rewrite Events_listen_cap_closed in Hstep. }
    rewrite Events_listen_cap_open in Hstep by done. simpl in Hstep.
    pose proof (listen_inv capacity s Hinv) as Hinv1.
    destruct (JSON_Send ws _); injection Hstep as <- <- <-;
      (split; [done|]); simpl; rewrite lookup_insert_eq; by eexists.
  - destruct (chan_recv c s) as [r| |] eqn:Hrecv; [|done..]. simpl in Hstep.
    pose proof (chan_recv_inv c s r Hinv Hrecv) as Hinv1.
    destruct Hh as [ch Hch].
    destruct (chan_recv_frame c s r c ch Hrecv Hch) as (Hcl & ch1 & Hch1 & _).
    destruct r.1 as [event|] eqn:Hr1.
    + destruct (JSON_Send ws event); injection Hstep as <- <- <-;
        (split; [done|]); simpl; by eexists.
    + injection Hstep as <- <- <-. split; [done|]. simpl.
      unfold chan_recv in Hrecv. rewrite Hch in Hrecv.
      destruct (buf ch) as [|v rest] eqn:Hbuf.
      * destruct (closed ch) eqn:Hclosed; [|done]. injection Hrecv as <-.
        split; [|by exists ch].
        destruct (clients s !! c) as [b|] eqn:Hb; [|done].
        pose proof (registry_open_lookup s c (proj1 Hinv) (mk_is_Some _ _ Hb)) as Ho.
        rewrite Hch in Ho. simpl in Ho. congruence.
      * injection Hrecv as <-. done.
  - destruct (unregisterChan_closed s) eqn:Hu.
    { by rewrite Events_stop_closed in Hstep. }
    rewrite Events_stop_open in Hstep by done. simpl in Hstep.
    injection Hstep as <- <- <-. split; [by apply unregister_inv|]. simpl.
    split; [apply lookup_delete_eq|]. destruct Hh as [ch Hch]. by exists ch.
  - injection Hstep as <- <- <-. done.
Qed.

Lemma other_step_handler_inv a h s o s1 :
  inv s → handler_inv h s → step capacity config a s = Ok (o, s1) →
  handler_inv h s1.
Proof.
  intros Hinv Hh Hstep. destruct h as [ws|ws c|c|c err]; simpl in *.
  - done.
  - by eapply step_allocated.
  - by eapply step_allocated.
  - destruct Hh as (Hc & ch & Hch & Herr).
    destruct (step_unregistered capacity config a s o s1 c ch Hinv Hstep Hc Hch)
      as (Hc1 & ch1 & Hch1 & Hbuf1 & _ & Hcl1).
    split; [done|]. exists ch1. split; [done|].
    intros He. destruct (Herr He) as [Hclosed Hnil]. split; [congruence|].
    rewrite Hnil in Hbuf1. symmetry in Hbuf1.
    by apply app_eq_nil in Hbuf1 as [_ ?].
Qed.

Lemma serve_inv sched : ∀ h s h' sent s',
  inv s → handler_inv h s →
  serve capacity config JSON_Send sched h s = Ok (h', sent, s') →
  inv s' ∧ handler_inv h' s'.
Proof.
  induction sched as [|[env|a] sched IH]; intros h s h' sent s' Hinv Hh Hserve;
    simpl in Hserve.
  - by injection Hserve as <- <- <-.
  - destruct (handler_step capacity config JSON_Send env h s)
      as [[[h1 sent1] s1]| |] eqn:H1; [|done..]. simpl in Hserve.
    destruct (handler_step_inv env h s h1 sent1 s1 Hinv Hh H1) as [Hinv1 Hh1].
    destruct (serve capacity config JSON_Send sched h1 s1)
      as [[[h2 sent2] s2]| |] eqn:H2; [|done..]. simpl in Hserve.
    injection Hserve as <- <- <-. by apply (IH h1 s1 h2 sent2 s2).
  - destruct (step capacity config a s) as [[o1 s1]| |] eqn:H1; [|done..].
    simpl in Hserve.
    apply (IH h s1 h' sent s'); [by eapply step_inv| |done].
    by eapply other_step_handler_inv.
Qed.

Lemma range_eventsClient_outcome ws (stream : list (@Event Payload)) end_closed :
  ((range_eventsClient JSON_Send ws stream end_closed).2 = Ok false →
     end_closed = true ∧
     (range_eventsClient JSON_Send ws stream end_closed).1 = stream) ∧
  ((range_eventsClient JSON_Send ws stream end_closed).2 = Blocked →
     end_closed = false ∧
     (range_eventsClient JSON_Send ws stream end_closed).1 = stream) ∧
  ((range_eventsClient JSON_Send ws stream end_closed).2 = Ok true →
     length (range_eventsClient JSON_Send ws stream end_closed).1 < length stream) ∧
  (∀ p, (range_eventsClient JSON_Send ws stream end_closed).2 ≠ Panic p).
Proof.
  revert ws. induction stream as [|event stream IH]; intros ws; simpl.
  - destruct end_closed; simpl; repeat split; done.
  - destruct (JSON_Send ws event) as [ws'|]; simpl.
    + destruct (IH ws') as (H1 & H2 & H3 & H4).
      repeat split.
      * by apply H1.
      * f_equal. by apply H1.
      * by apply H2.
      * f_equal. by apply H2.
      * intros H. apply H3 in H. lia.
      * apply H4.
    + repeat split; try done. lia.
Qed.

End HandlerFacts.

(** X5: when the goroutine of [ServeWebsocket] has returned, however its
    moves were interleaved with the loop and other callers, its queue is
    no longer in the registry: [serveWebsocket] returns nil only on a queue
    the loop closed and the goroutine has emptied, and after an error the
    goroutine has called [stop]. *)
Theorem ServeWebsocket_leaves_no_subscription {Payload Env Conn : Type}
    (capacity : nat) (config : @EventConfig Payload Env)
    (JSON_Send : Conn → @iface Payload → option Conn)
    (sched : list (@move Payload Env)) (ws : Conn) (s s' : @system Payload)
    (c : chan_id) (err : bool) (sent : list (@iface Payload)) :
  inv s →
  serve capacity config JSON_Send sched (h_listen ws) s
    = Ok (h_done c err, sent, s') →
  clients s' !! c = None ∧
  ∃ ch, chans s' !! c = Some ch ∧ (err = false → closed ch = true ∧ buf ch = []).
Proof.
  intros Hinv Hserve.
  by destruct (serve_inv capacity config JSON_Send sched (h_listen ws) s
                 (h_done c err) sent s' Hinv I Hserve) as [_ H].
Qed.

Lemma ServeWebsocket_leaves_no_subscription_witness :
  clients after_stop !! 0 = None ∧
  ∃ ch, chans after_stop !! 0 = Some ch ∧
        (true = false → closed ch = true ∧ buf ch = []).
Proof.
  apply (ServeWebsocket_leaves_no_subscription 1 demo_config budget_send
           [mv_handler 4; mv_other (a_listen 0); mv_other (a_push (dyn 5));
            mv_handler 0; mv_other (a_recv 1); mv_handler 0]
           1 (@MakeEvents nat) after_stop 0 true [dyn 4]).
  - apply (bool_decide_unpack _). vm_compute. reflexivity.
  - vm_compute. reflexivity.
Defined.

(** X6: [serveWebsocket] never panics; it returns nil only if the queue was
    closed, and then it has sent the snapshot and every value the queue
    yielded, each once and in order; while it waits on the open queue it
    has sent all of them as well; and it returns an error only with
    something left unsent. *)
Theorem serveWebsocket_outcomes {Payload Conn : Type}
    (JSON_Send : Conn → @iface Payload → option Conn) (ws : Conn)
    (state : @State Payload) (stream : list (@Event Payload)) (end_closed : bool) :
  ((eventsClient_serveWebsocket JSON_Send ws state stream end_closed).2 = Ok false →
     end_closed = true ∧
     (eventsClient_serveWebsocket JSON_Send ws state stream end_closed).1
       = state :: stream) ∧
  ((eventsClient_serveWebsocket JSON_Send ws state stream end_closed).2 = Blocked →
     end_closed = false ∧
     (eventsClient_serveWebsocket JSON_Send ws state stream end_closed).1
       = state :: stream) ∧
  ((eventsClient_serveWebsocket JSON_Send ws state stream end_closed).2 = Ok true →
     length (eventsClient_serveWebsocket JSON_Send ws state stream end_closed).1
       < length (state :: stream)) ∧
  (∀ p, (eventsClient_serveWebsocket JSON_Send ws state stream end_closed).2
          ≠ Panic p).
Proof.
  unfold eventsClient_serveWebsocket.
  destruct (JSON_Send ws state) as [ws'|]; simpl.
  - destruct (range_eventsClient_outcome JSON_Send ws' stream end_closed)
      as (H1 & H2 & H3 & H4).
    repeat split.
    + by apply H1.
    + f_equal. by apply H1.
    + by apply H2.
    + f_equal. by apply H2.
    + intros H. apply H3 in H. apply (proj1 (Nat.succ_lt_mono _ _)). exact H.
    + apply H4.
  - repeat split; try done. intros _. apply Nat.lt_0_succ.
Qed.

(** ** src/events.go *)




(** ** REST resources *)

Section SliceFacts.
Context {A : Type}.
Implicit Types l mid : list A.

Lemma slice_index_at l l1 x l2 i :
  l = l1 ++ x :: l2 → i = Z.of_nat (length l1) → slice_index l i = Some x.
Proof.
  intros -> ->. unfold slice_index. rewrite decide_True by lia.
  rewrite Nat2Z.id. apply list_lookup_middle. done.
Qed.

Lemma slice_assign_at l l1 x l2 i y :
  l = l1 ++ x :: l2 → i = Z.of_nat (length l1) →
  slice_assign l i y = Some (l1 ++ y :: l2).
Proof.
  intros -> ->. unfold slice_assign. rewrite decide_True.
  - rewrite Nat2Z.id. f_equal.
    rewrite insert_app_r_alt by lia. by rewrite Nat.sub_diag.
  - rewrite length_app. simpl. lia.
Qed.

Lemma reverse_rounds_middle n : ∀ k l l1 mid l2 i j,
  length mid = n → l = l1 ++ mid ++ l2 →
  i = Z.of_nat (length l1) → j = (i + Z.of_nat (length mid) - 1)%Z →
  (j - i ≤ Z.of_nat k)%Z →
  reverse_rounds k l i j = Some (l1 ++ reverse mid ++ l2).
Proof.
  induction (lt_wf n) as [n _ IH]. intros k l l1 mid l2 i j Hn Hl Hi Hj Hk.
  destruct (decide (i < j)%Z) as [Hlt|Hge].
  - destruct k as [|k]; [lia|]. simpl. rewrite decide_True by done.
    destruct mid as [|x mid]; [simpl in Hj; lia|].
    destruct mid as [|y mid' _] using rev_ind; [simpl in Hj; lia|].
    rewrite length_cons, length_app in Hj, Hn. simpl in Hj, Hn.
    rewrite (slice_index_at l (l1 ++ x :: mid') y l2 j);
      [|rewrite Hl; simpl; by rewrite <-?app_assoc
       |rewrite ?length_app; simpl; lia].
    rewrite (slice_index_at l l1 x (mid' ++ y :: l2) i);
      [|rewrite Hl; simpl; by rewrite <-?app_assoc|done].
    rewrite (slice_assign_at l l1 x (mid' ++ y :: l2) i y);
      [|rewrite Hl; simpl; by rewrite <-?app_assoc|done].
    simpl.
    rewrite (slice_assign_at _ (l1 ++ y :: mid') y l2 j x);
      [|by rewrite <-?app_assoc|rewrite ?length_app; simpl; lia].
    rewrite (IH (length mid') ltac:(lia) k _ (l1 ++ [y]) mid' (x :: l2));
      [|done|by rewrite <-?app_assoc|rewrite ?length_app; simpl; lia
       |rewrite ?length_app; simpl; lia|lia].
    f_equal. rewrite reverse_cons, reverse_snoc. simpl.
    by rewrite <-!app_assoc.
  - assert (reverse_rounds k l i j = Some l) as ->.
    { destruct k; simpl; by rewrite decide_False. }
    subst l. destruct mid as [|x [|x' mid]]; simpl in *; try done.
    lia.
Qed.

Lemma reverse_loop_reverse l :
  reverse_loop l 0 (Z.of_nat (length l) - 1) = Some (reverse l).
Proof.
  unfold reverse_loop.
  rewrite (reverse_rounds_middle (length l) _ l [] l []); simpl; try done.
  - by rewrite app_nil_r.
  - by rewrite app_nil_r.
  - lia.
Qed.

End SliceFacts.

Lemma strings_Split_cons s : ∃ name names, strings_Split s = name :: names.
Proof.
  induction s as [|a s IH]; simpl; [by eexists _, _|].
  case_decide; [by eexists _, _|].
  destruct IH as (name & names & ->). by eexists _, _.
Qed.

Lemma strings_Split_app p q :
  strings_Split (p +:+ "/" +:+ q) = strings_Split p ++ strings_Split q.
Proof.
  induction p as [|a p IH]; simpl; [done|].
  case_decide; [by rewrite IH|].
  rewrite IH. by destruct (strings_Split_cons p) as (name & names & ->).
Qed.

Lemma strings_Split_no_slash s : no_slash s = true → strings_Split s = [s].
Proof.
  induction s as [|a s IH]; simpl; [done|].
  case_decide; [done|]. intros Hs. by rewrite (IH Hs).
Qed.

Section RESTFacts.

Context {W Obj Req : Type}.
Variable schema_Decode_query : Obj → Req → W → option error * W.
Variable ParseForm : Req → option error.
Variable schema_Decode_form : Obj → Req → W → option error * W.
Variable json_Decode : Obj → Req → W → option error * W.
Variable json_Encode : Obj → W → option error.
Variable query_Errorf : Obj → Obj → error → error.

Abbreviation qstep := (query_step schema_Decode_query query_Errorf).
Abbreviation walk := (lookup_names schema_Decode_query query_Errorf).
Abbreviation lookup := (API_lookup schema_Decode_query query_Errorf).
Abbreviation handle :=
  (API_handle schema_Decode_query ParseForm schema_Decode_form json_Decode
              json_Encode query_Errorf).
Abbreviation ServeHTTP :=
  (API_ServeHTTP schema_Decode_query ParseForm schema_Decode_form json_Decode
                 json_Encode query_Errorf).

Implicit Types (r : @Request Req) (w : W) (resource : option (@Resource W Obj))
  (mutables : list (@MutableResource W)).

Lemma query_step_raw r r' resource w :
  raw r' = raw r → qstep r' resource w = qstep r resource w.
Proof.
  intros H. unfold query_step, readQuery. by rewrite H.
Qed.

Lemma lookup_names_raw r r' names : ∀ resource mutables w,
  raw r' = raw r →
  walk r' names resource mutables w = walk r names resource mutables w.
Proof.
  induction names as [|name names IH]; intros resource mutables w H; simpl; [done|].
  rewrite (query_step_raw r r') by done.
  destruct (qstep r resource w) as [[err|] w1]; [done|].
  destruct (resource ≫= Index) as [index|]; [|done].
  destruct (index name w1) as [[[next|] [err|]] w2]; auto.
Qed.

Lemma lookup_names_app r names1 names2 : ∀ resource mutables w,
  walk r (names1 ++ names2) resource mutables w =
    match walk r names1 resource mutables w with
    | ((resource', mutables', None), w1) =>
        walk r names2 resource' mutables' w1
    | failed => failed
    end.
Proof.
  induction names1 as [|name names1 IH]; intros resource mutables w; simpl; [done|].
  destruct (qstep r resource w) as [[err|] w1]; [done|].
  destruct (resource ≫= Index) as [index|]; [|done].
  destruct (index name w1) as [[[next|] [err|]] w2]; auto.
Qed.

(** A failed walk returns no mutables. *)
Lemma lookup_names_failed r names : ∀ resource mutables w resource' mutables' err w1,
  walk r names resource mutables w = ((resource', mutables', Some err), w1) →
  mutables' = [].
Proof.
  induction names as [|name names IH]; intros resource mutables w resource' mutables' err w1;
    simpl; [done|].
  destruct (qstep r resource w) as [[e|] w2]; [by intros [= _ <- _ _]|].
  destruct (resource ≫= Index) as [index|]; [|by intros [= _ <- _ _]].
  destruct (index name w2) as [[[next|] [e|]] w3];
    try (by intros [= _ <- _ _]).
  apply IH.
Qed.






(** X9: [lookup] asks the root for an index even for the empty path,
    because [strings.Split] gives at least one name: with a root that is
    nil, or has no [Index] (and no [QueryREST]), every request ends in 404
    at the root, with nothing called. *)
Theorem lookup_needs_index root r w :
  root ≫= Index = None → root ≫= QueryREST = None →
  API_lookup schema_Decode_query query_Errorf root r w = Some ((root, [], Some (web_Error StatusNotFound None)), w).
Proof.
  intros Hindex Hquery. unfold API_lookup.
  destruct (strings_Split_cons (URL_Path r)) as (name & names & ->). simpl.
  assert (qstep r root w = (None, w)) as ->.
  { unfold query_step. destruct root as [res|]; [|done].
    simpl in Hquery. by rewrite Hquery. }
  by rewrite Hindex.
Qed.

(** X10: [lookup] of a path with one more name, [path/name], is [lookup] of
    [path] followed by one step: an error of the shorter path comes back
    unchanged, with the same resource and the same world; otherwise [name]
    is looked up under the resource reached, and the child's [ApplyREST]
    is put in front of the mutables, which so stay innermost first. *)
Theorem lookup_extends root r r' name w resource mutables err w1 :
  no_slash name = true →
  URL_Path r' = URL_Path r +:+ "/" +:+ name → raw r' = raw r →
  API_lookup schema_Decode_query query_Errorf root r w = Some ((resource, mutables, err), w1) →
  API_lookup schema_Decode_query query_Errorf root r' w =
    Some (match err with
          | Some _ => ((resource, mutables, err), w1)
          | None =>
              lookup_child schema_Decode_query query_Errorf r' name resource mutables w1
          end).
Proof.
  intros Hname Hpath Hraw. unfold API_lookup.
  rewrite Hpath, strings_Split_app, (strings_Split_no_slash name Hname).
  rewrite (lookup_names_raw r r') by done.
  rewrite lookup_names_app.
  destruct (walk r (strings_Split (URL_Path r)) root (append_mutable [] root) w)
    as [[[res ms] [e|]] w0] eqn:Hwalk.
  { by intros [= <- <- <- <-]. }
  simpl.
  destruct (qstep r res w0) as [[e|] w2].
  { by intros [= <- <- <- <-]. }
  rewrite reverse_loop_reverse. simpl. intros [= <- <- <- <-].
  unfold lookup_child.
  destruct (res ≫= Index) as [index|]; [|done].
  destruct (index name w2) as [[[next|] [e|]] w3]; try done.
  destruct (query_step _ _ r' (Some next) w3) as [[e|] w4]; [done|].
  rewrite reverse_loop_reverse. simpl. do 3 f_equal.
  unfold append_mutable. simpl.
  destruct (ApplyREST next); [by rewrite reverse_snoc|done].
Qed.

(** X11: [handle] returns an error of [lookup] before it looks at the
    method, and answers a method other than GET, POST, PUT and DELETE with
    501; in both cases it writes nothing and calls no method of the
    resource beyond those of [lookup]. *)
Theorem handle_lookup_error_first root r w resource mutables err w1 :
  API_lookup schema_Decode_query query_Errorf root r w = Some ((resource, mutables, err), w1) →
  match err with
  | Some e => API_handle schema_Decode_query ParseForm schema_Decode_form json_Decode
    json_Encode query_Errorf root r w = Some (([], Some e), w1)
  | None =>
      Method r ≠ "GET" → Method r ≠ "POST" → Method r ≠ "PUT" →
      Method r ≠ "DELETE" →
      API_handle schema_Decode_query ParseForm schema_Decode_form json_Decode
    json_Encode query_Errorf root r w = Some (([], Some (web_Error StatusNotImplemented None)), w1)
  end.
Proof.
  intros Hl. unfold API_handle. rewrite Hl. simpl.
  destruct err as [e|]; [done|]. intros. by rewrite !decide_False.
Qed.


(** X13: [apply] runs the [ApplyREST] of the resource and then of the
    parents in order and stops at the first error: on a list of parents
    followed by more parents, an error among the first is returned with
    the world it left, and the others are not run. *)
Theorem apply_stops_at_first_error (applyREST : option (@MutableResource W))
    parents1 parents2 w :
  API_apply applyREST (parents1 ++ parents2) w =
    match API_apply applyREST parents1 w with
    | (Some err, w1) => (Some err, w1)
    | (None, w1) => apply_parents parents2 w1
    end.
Proof.
  assert (∀ w0, apply_parents (parents1 ++ parents2) w0 =
                  match apply_parents parents1 w0 with
                  | (Some err, w1) => (Some err, w1)
                  | (None, w1) => apply_parents parents2 w1
                  end) as Hp.
  { induction parents1 as [|p parents1 IH]; intros w0; simpl; [done|].
    destruct (p w0) as [[e|] w1]; [done|]. apply IH. }
  unfold API_apply. destruct applyREST as [f|]; [|apply Hp].
  destruct (f w) as [[e|] w1]; [done|]. apply Hp.
Qed.

End RESTFacts.

(** X8: the loop that reverses the mutables in place never indexes out of
    range, and leaves the slice reversed, whatever its length. *)
Theorem reverse_loop_reverses_slice {A : Type} (l : list A) :
  reverse_loop l 0 (Z.of_nat (length l) - 1) = Some (reverse l) ∧
  ∀ k, (Z.of_nat (length l) - 1 ≤ Z.of_nat k)%Z →
       reverse_rounds k l 0 (Z.of_nat (length l) - 1) = Some (reverse l).
Proof.
  split; [apply reverse_loop_reverse|]. intros k Hk.
  rewrite (reverse_rounds_middle (length l) k l [] l []); simpl; try done.
  - by rewrite app_nil_r.
  - by rewrite app_nil_r.
  - lia.
Qed.

Lemma lookup_needs_index_witness :
  API_lookup decode_ok rest_query_Errorf (Some rest_value)
             (rest_request "GET" "a/leaf") []
    = Some ((Some rest_value, [], Some (web_Error StatusNotFound None)), []).
Proof.
  apply (lookup_needs_index decode_ok rest_query_Errorf (Some rest_value)
           (rest_request "GET" "a/leaf") []); reflexivity.
Defined.

Lemma lookup_extends_witness :
  API_lookup decode_ok rest_query_Errorf (Some rest_root)
             (rest_request "POST" "a/leaf") []
    = Some ((Some rest_leaf,
             [λ w, (None, w ++ ["apply leaf"]); λ w, (None, w ++ ["apply a"])],
             None), []).
Proof.
  apply (lookup_extends decode_ok rest_query_Errorf (Some rest_root)
           (rest_request "POST" "a") (rest_request "POST" "a/leaf") "leaf" []
           (Some rest_a) [λ w, (None, w ++ ["apply a"])] None []);
    reflexivity.
Defined.

Lemma handle_lookup_error_first_witness :
  API_handle decode_ok (λ _, None) decode_ok decode_ok (λ _ _, None)
             rest_query_Errorf (Some rest_root) (rest_request "PATCH" "a/leaf") []
    = Some (([], Some (web_Error StatusNotImplemented None)), []).
Proof.
  apply (handle_lookup_error_first decode_ok (λ _, None) decode_ok decode_ok
           (λ _ _, None) rest_query_Errorf (Some rest_root)
           (rest_request "PATCH" "a/leaf") [] (Some rest_leaf)
           [λ w, (None, w ++ ["apply leaf"]); λ w, (None, w ++ ["apply a"])]
           None []); [reflexivity|discriminate..].
Defined.

(** A POST on the tree: the notifications run innermost first. *)
Example rest_post_applies_innermost_first :
  API_ServeHTTP decode_ok (λ _, None) decode_ok decode_ok (λ _ _, None)
    rest_query_Errorf
    (Some (mkResource "root"
             (Some (λ name w, ((Some (mkResource "item" None None
                                        (Some (λ w, ("into", w)))
                                        None
                                        (Some (λ w, ((Some rest_leaf, None), w ++ ["POST item"])))
                                        None None
                                        (Some (λ w, (None, w ++ ["apply item"])))),
                                None), w)))
             None None None None None None
             (Some (λ w, (None, w ++ ["apply root"])))))
    {| Method := "POST"; URL_Path := "item";
       Content_Type := "application/json"; raw := () |} []
  = Some ([Header_Set "Content-Type" "application/json"; Encode "leaf"],
          ["POST item"; "apply leaf"; "apply item"; "apply root"]).
Proof. vm_compute. reflexivity. Qed.

(** X14: for GET and DELETE, [handle] never decodes the request body:
    whatever [ParseForm] and the form and JSON decoders would do, the
    calls on the response writer, the error and the world are the same. *)
Theorem handle_get_delete_ignore_body {W Obj Req : Type}
    (schema_Decode_query : Obj → Req → W → option error * W)
    (ParseForm1 ParseForm2 : Req → option error)
    (schema_Decode_form1 schema_Decode_form2 : Obj → Req → W → option error * W)
    (json_Decode1 json_Decode2 : Obj → Req → W → option error * W)
    (json_Encode : Obj → W → option error)
    (query_Errorf : Obj → Obj → error → error)
    (root : option (@Resource W Obj)) (r : @Request Req) (w : W) :
  Method r = "GET" ∨ Method r = "DELETE" →
  API_handle schema_Decode_query ParseForm1 schema_Decode_form1 json_Decode1
             json_Encode query_Errorf root r w
  = API_handle schema_Decode_query ParseForm2 schema_Decode_form2 json_Decode2
               json_Encode query_Errorf root r w.
Proof.
  intros Hm. unfold API_handle.
  destruct (API_lookup schema_Decode_query query_Errorf root r w)
    as [[[[resource mutables] [err|]] w1]|]; simpl; try done.
  destruct Hm as [-> | ->]; by repeat (case_decide; try done).
Qed.

Lemma handle_get_delete_ignore_body_witness :
  API_handle decode_ok (λ _, None) decode_ok decode_ok (λ _ _, None)
             rest_query_Errorf (Some rest_root) (rest_request "GET" "a/leaf") []
  = API_handle decode_ok (λ _, Some (other_error "broken form"))
               (λ _ _ w, (Some (other_error "bad form"), w))
               (λ _ _ w, (Some (other_error "bad json"), w)) (λ _ _, None)
               rest_query_Errorf (Some rest_root) (rest_request "GET" "a/leaf") [].
Proof.
  apply (handle_get_delete_ignore_body decode_ok (λ _, None)
           (λ _, Some (other_error "broken form")) decode_ok
           (λ _ _ w, (Some (other_error "bad form"), w)) decode_ok
           (λ _ _ w, (Some (other_error "bad json"), w)) (λ _ _, None)
           rest_query_Errorf (Some rest_root) (rest_request "GET" "a/leaf") []).
  left. reflexivity.
Defined.
